(** * marketComplaint: the ingestion, reconciliation and view engine of
    [src/index.tsx], embedded in Rocq.

    Strings are sequences of code units below 256, the Basic Latin and
    Latin-1 Supplement blocks: the case mappings, the white space class and
    the regular expression class [\w] are those of ECMAScript on these code
    units.  A statement that needs a text to be in the ASCII range carries
    that as a hypothesis, [asciiText].  The search is also given on lists
    of any code units, in [Wide], for the case mapping that depends on the
    neighbouring letters.
    The numbers that [parseInt] returns are the Number values of the
    integers read: integers of [Z] rounded to 53 significant bits, the two
    infinities, and [None] for [NaN]. *)

From Stdlib Require Import ZArith Lia Ascii String List Sorted Permutation.
From stdpp Require Import base list strings gmap.

Local Open Scope Z_scope.

(** ** The ECMAScript built-ins the engine calls *)

Module JS.

Definition code (c : ascii) : Z := Z.of_N (N_of_ascii c).

Definition of_code (z : Z) : ascii := ascii_of_N (Z.to_N z).

Definition isUpper (c : ascii) : bool := (65 <=? code c) && (code c <=? 90).

Definition isLower (c : ascii) : bool := (97 <=? code c) && (code c <=? 122).

Definition isDigit (c : ascii) : bool := (48 <=? code c) && (code c <=? 57).

(** [\w] without the [u] and [i] flags: [[A-Za-z0-9_]]. *)
Definition isWordChar (c : ascii) : bool :=
  isUpper c || isLower c || isDigit c || (code c =? 95).

(** WhiteSpace and LineTerminator below 256: TAB, LF, VT, FF, CR, SP and
    the no-break space U+00A0. *)
Definition isWhiteSpace (c : ascii) : bool :=
  ((9 <=? code c) && (code c <=? 13)) || (code c =? 32) || (code c =? 160).

(** The letters below 256 that have a lower-case form, which lies 32 code
    units above: A to Z, and U+00C0 to U+00DE without the multiplication
    sign U+00D7. *)
Definition hasLowerCase (c : ascii) : bool :=
  isUpper c || ((192 <=? code c) && (code c <=? 222) && negb (code c =? 215)).

Definition toLowerChar (c : ascii) : ascii :=
  if hasLowerCase c then of_code (code c + 32) else c.

(** The letters below 256 whose capital is one code unit below 256, which
    lies 32 code units below: a to z, and U+00E0 to U+00FE without the
    division sign U+00F7. *)
Definition hasUpperCase (c : ascii) : bool :=
  isLower c || ((224 <=? code c) && (code c <=? 254) && negb (code c =? 247)).

Definition toUpperChar (c : ascii) : ascii :=
  if hasUpperCase c then of_code (code c - 32) else c.

Fixpoint map_chars (f : ascii -> ascii) (s : string) : string :=
  match s with
  | EmptyString => EmptyString
  | String c s' => String (f c) (map_chars f s')
  end.

(** [String.prototype.toLowerCase]. *)
Definition toLowerCase (s : string) : string := map_chars toLowerChar s.

(** [s.startsWith(t)]. *)
Fixpoint startsWith (s t : string) {struct t} : bool :=
  match t, s with
  | EmptyString, _ => true
  | String b t', String a s' => Ascii.eqb a b && startsWith s' t'
  | String _ _, EmptyString => false
  end.

(** [s.includes(t)]. *)
Fixpoint includes (s t : string) : bool :=
  startsWith s t ||
  match s with
  | EmptyString => false
  | String _ s' => includes s' t
  end.

(** [!s] on a string: only the empty string is falsy. *)
Definition falsy (s : string) : bool :=
  match s with EmptyString => true | String _ _ => false end.

(** [!x] where [x] is a string or [undefined]. *)
Definition lnot (x : option string) : bool :=
  match x with Some s => falsy s | None => true end.

(** [x || d] where [x] is a string or [undefined]. *)
Definition or_default (x : option string) (d : string) : string :=
  match x with
  | Some s => if falsy s then d else s
  | None => d
  end.

Definition cons_head (c : ascii) (l : list string) : list string :=
  match l with
  | h :: t => String c h :: t
  | [] => [String c EmptyString]
  end.

(** [s.split(sep)] for a separator of one character. *)
Fixpoint split (sep : ascii) (s : string) : list string :=
  match s with
  | EmptyString => [EmptyString]
  | String c s' =>
      if Ascii.eqb c sep then EmptyString :: split sep s'
      else cons_head c (split sep s')
  end.

Fixpoint trimStart (s : string) : string :=
  match s with
  | EmptyString => EmptyString
  | String c s' => if isWhiteSpace c then trimStart s' else s
  end.

Fixpoint trimEnd (s : string) : string :=
  match s with
  | EmptyString => EmptyString
  | String c s' =>
      let r := trimEnd s' in
      if falsy r && isWhiteSpace c then EmptyString else String c r
  end.

(** [String.prototype.trim]. *)
Definition trim (s : string) : string := trimEnd (trimStart s).

(** [arr.slice(1)]. *)
Definition slice1 {A} (l : list A) : list A := drop 1 l.

(** A number other than [NaN]: an integer, [Infinity] or [-Infinity].
    The sign of zero is not kept; no comparison tells the two zeros apart. *)
Inductive Num := Fin (z : Z) | Infinity | NegInfinity.

(** An integer [a] from 2^53 on, rounded to the nearest integer whose
    significand has 53 bits, to the one with an even significand when two
    are equally near. *)
Definition roundToDouble (a : Z) : Z :=
  let e := Z.log2 a - 52 in
  let q := a / 2 ^ e in
  let r := a mod 2 ^ e in
  let up := (2 ^ (e - 1) <? r) || ((r =? 2 ^ (e - 1)) && Z.odd q) in
  (if up then q + 1 else q) * 2 ^ e.

(** The Number value for the integer [n]: [n] itself below 2^53 in
    absolute value, beyond that [n] rounded, and an infinity when the
    rounded value is 2^1024 or more. *)
Definition toDouble (n : Z) : Num :=
  let a := Z.abs n in
  if a <? 2 ^ 53 then Fin n
  else
    let v := roundToDouble a in
    if 2 ^ 1024 <=? v then (if n <? 0 then NegInfinity else Infinity)
    else Fin (if n <? 0 then - v else v).

(** [parseInt(s, 10)]: leading white space is skipped, then an optional
    sign, then the longest run of decimal digits.  [mathInt] is the integer
    these digits write, with its sign, and [None] when there is no digit;
    [parseInt] returns its Number value, correctly rounded, [None] being
    [NaN]. *)
Fixpoint digitsValue (acc : option Z) (s : string) : option Z :=
  match s with
  | EmptyString => acc
  | String c s' =>
      if isDigit c
      then digitsValue (Some (10 * default 0 acc + (code c - 48))) s'
      else acc
  end.

Definition mathInt (s : string) : option Z :=
  match trimStart s with
  | String c r =>
      if Ascii.eqb c "-"%char then Z.opp <$> digitsValue None r
      else if Ascii.eqb c "+"%char then digitsValue None r
      else digitsValue None (String c r)
  | EmptyString => None
  end.

Definition parseInt (s : string) : option Num := toDouble <$> mathInt s.

(** [x + k] for a number [x] and an integer [k]. *)
Definition plus (x : Num) (k : Z) : Num :=
  match x with
  | Fin z => toDouble (z + k)
  | _ => x
  end.

Definition num_eqb (x y : Num) : bool :=
  match x, y with
  | Fin a, Fin b => a =? b
  | Infinity, Infinity | NegInfinity, NegInfinity => true
  | _, _ => false
  end.

(** [x === y] on numbers, [None] being [NaN]. *)
Definition strict_eq (x y : option Num) : bool :=
  match x, y with
  | Some a, Some b => num_eqb a b
  | _, _ => false
  end.

(** Comparison of strings by code units, [s < t]. *)
Fixpoint str_lt (s t : string) : bool :=
  match s, t with
  | _, EmptyString => false
  | EmptyString, String _ _ => true
  | String a s', String b t' =>
      if code a <? code b then true
      else if code b <? code a then false
      else str_lt s' t'
  end.

(** [x < y] on numbers. *)
Definition num_lt (x y : Num) : bool :=
  match x, y with
  | Fin a, Fin b => a <? b
  | Fin _, Infinity | NegInfinity, Fin _ | NegInfinity, Infinity => true
  | _, _ => false
  end.

(** [Array.prototype.sort(comparefn)]: the sort is stable, and an element
    moves in front of another only when [comparefn] returns a negative
    number for the pair.  Modelled by insertion; [insert x l] places [x],
    which stood before all of [l], into the sorted [l]. *)
Section Sort.
Context {A : Type} (comparefn : A -> A -> Z).

Fixpoint insert (x : A) (l : list A) : list A :=
  match l with
  | [] => [x]
  | y :: l' => if comparefn y x <? 0 then y :: insert x l' else x :: y :: l'
  end.

Fixpoint sort (l : list A) : list A :=
  match l with
  | [] => []
  | x :: l' => insert x (sort l')
  end.
End Sort.

(** Time values: days and years of the ECMAScript calendar. *)
Definition msPerDay : Z := 86400000.

Definition Day (t : Z) : Z := t / msPerDay.

Definition DayFromYear (y : Z) : Z :=
  365 * (y - 1970) + (y - 1969) / 4 - (y - 1901) / 100 + (y - 1601) / 400.

Definition DaysInYear (y : Z) : Z :=
  if negb (y mod 4 =? 0) then 365
  else if negb (y mod 100 =? 0) then 366
  else if negb (y mod 400 =? 0) then 365
  else 366.

Definition InLeapYear (y : Z) : Z := if DaysInYear y =? 366 then 1 else 0.

(** The largest [y] with [DayFromYear y <= d]: an estimate from the mean
    length of a year, corrected by at most one year. *)
Definition YearFromDay (d : Z) : Z :=
  let y0 := 1970 + (400 * d) / 146097 in
  if d <? DayFromYear y0 then y0 - 1
  else if DayFromYear (y0 + 1) <=? d then y0 + 1
  else y0.

Definition YearFromTime (t : Z) : Z := YearFromDay (Day t).

Definition DayWithinYear (t : Z) : Z := Day t - DayFromYear (YearFromTime t).

(** The day within the year on which month [m] (0 to 11) starts; [12]
    gives the length of the year. *)
Definition monthStart (leap m : Z) : Z :=
  match m with
  | 0 => 0 | 1 => 31 | 2 => 59 + leap | 3 => 90 + leap | 4 => 120 + leap
  | 5 => 151 + leap | 6 => 181 + leap | 7 => 212 + leap | 8 => 243 + leap
  | 9 => 273 + leap | 10 => 304 + leap | 11 => 334 + leap
  | _ => 365 + leap
  end.

Definition MonthFromTime (t : Z) : Z :=
  let leap := InLeapYear (YearFromTime t) in
  let d := DayWithinYear t in
  if d <? monthStart leap 1 then 0
  else if d <? monthStart leap 2 then 1
  else if d <? monthStart leap 3 then 2
  else if d <? monthStart leap 4 then 3
  else if d <? monthStart leap 5 then 4
  else if d <? monthStart leap 6 then 5
  else if d <? monthStart leap 7 then 6
  else if d <? monthStart leap 8 then 7
  else if d <? monthStart leap 9 then 8
  else if d <? monthStart leap 10 then 9
  else if d <? monthStart leap 11 then 10
  else 11.

Definition DateFromTime (t : Z) : Z :=
  DayWithinYear t - monthStart (InLeapYear (YearFromTime t)) (MonthFromTime t) + 1.

(** [MakeDay(year, month, date)] on integers. *)
Definition MakeDay (year month date : Z) : Z :=
  let ym := year + month / 12 in
  let mn := month mod 12 in
  DayFromYear ym + monthStart (InLeapYear ym) mn + date - 1.

(** [TimeClip]: a time value beyond 8.64e15 ms is [NaN]. *)
Definition TimeClip (t : Z) : option Z :=
  if 8640000000000000 <? Z.abs t then None else Some t.

Definition MakeFullYear (y : Z) : Z :=
  if (0 <=? y) && (y <=? 99) then 1900 + y else y.

(** [Date.UTC(year, month, date)] on integers, the time part being zero. *)
Definition Date_UTC (year month date : Z) : option Z :=
  TimeClip (MakeDay (MakeFullYear year) month date * msPerDay).

(** [Date.UTC(year, month, date)] on numbers: [MakeDay] returns [NaN] when
    one of them is not finite. *)
Definition Date_UTC_numbers (year month date : Num) : option Z :=
  match year, month, date with
  | Fin y, Fin m, Fin d => Date_UTC y m d
  | _, _, _ => None
  end.

(** [new Date(tv)] holds the time value [tv]; the getters return [NaN]
    on an invalid date. *)
Definition getUTCFullYear (tv : option Z) : option Z := YearFromTime <$> tv.
Definition getUTCMonth (tv : option Z) : option Z := MonthFromTime <$> tv.
Definition getUTCDate (tv : option Z) : option Z := DateFromTime <$> tv.

(** An integer or [NaN] as a number. *)
Definition number (x : option Z) : option Num := Fin <$> x.

(** [String.prototype.toUpperCase]: the sharp s, U+00DF, becomes two
    letters.  The capitals of the micro sign U+00B5 and of U+00FF are code
    units above 255; these two letters are left as they are. *)
Fixpoint toUpperCase (s : string) : string :=
  match s with
  | EmptyString => EmptyString
  | String c s' =>
      if code c =? 223 then String "S" (String "S" (toUpperCase s'))
      else String (toUpperChar c) (toUpperCase s')
  end.

(** [s.charAt(0)]: the empty string when [s] is empty. *)
Definition charAt0 (s : string) : string :=
  match s with
  | EmptyString => EmptyString
  | String c _ => String c EmptyString
  end.


(** [Array.from(new Set(xs))]: the values in the order of their first
    insertion; [seen] is the set built so far. *)
Fixpoint Set_values_from (seen : gset string) (xs : list string) : list string :=
  match xs with
  | [] => []
  | x :: xs' =>
      if decide (x ∈ seen) then Set_values_from seen xs'
      else x :: Set_values_from ({[x]} ∪ seen) xs'
  end.

Definition Set_values (xs : list string) : list string := Set_values_from ∅ xs.

(** The comparison of [sort()] without a comparator, on strings. *)
Definition defaultCompare (x y : string) : Z :=
  if str_lt x y then -1 else if str_lt y x then 1 else 0.






End JS.

(** ** Data model *)

Inductive Status := InProgress | Closed.

Record Complaint := mkComplaint {
  id : string;
  plannedDate : string;
  step : string;
  stepCode : string;
  fullName : string;
  signature : string;
  contact : string;
  country : string;
  improvementPhotoUrl : string;
  statusLink : string;
  notes : string;
  equipmentName : string;
  status : Status
}.

Inductive SortKey :=
| Kid | KplannedDate | Kstep | KstepCode | KfullName | Ksignature | Kcontact
| Kcountry | KimprovementPhotoUrl | KstatusLink | Knotes | KequipmentName
| Kstatus.

Inductive SortOrder := asc | desc.

(** [String(value)] for the [status] field. *)
Definition status_string (s : Status) : string :=
  match s with InProgress => "in-progress" | Closed => "closed" end.

(** ** Utility functions *)

Definition getStatus (step : string) : Status :=
  if JS.falsy step then InProgress
  else if JS.includes (JS.toLowerCase step) "complete" then Closed
  else InProgress.

(** The double quote character, code unit 34. *)
Definition dquote : ascii := "034"%char.

(** [line.split(re)] where [re] is a comma followed by a look-ahead: pairs of
    quote-terminated runs of non-quote characters, then non-quote characters
    up to the end of the line.  The look-ahead succeeds exactly when the rest
    of the line holds an even number of double quotes.  The second component
    is that parity for the text scanned so far. *)
Fixpoint splitCSV_aux (s : string) : list string * bool :=
  match s with
  | EmptyString => ([EmptyString], true)
  | String c s' =>
      let '(r, even) := splitCSV_aux s' in
      if Ascii.eqb c ","%char && even then (EmptyString :: r, even)
      else (JS.cons_head c r, if Ascii.eqb c dquote then negb even else even)
  end.

Definition splitCSV (line : string) : list string := fst (splitCSV_aux line).

Fixpoint stripTrailingQuote (s : string) : string :=
  match s with
  | EmptyString => EmptyString
  | String c EmptyString => if Ascii.eqb c dquote then EmptyString else s
  | String c s' => String c (stripTrailingQuote s')
  end.

(** [v.replace(re, '')] where [re] is, with the global flag, a quote at the
    start or a quote at the end: the first alternative can only match at
    index 0 and the second only at the last index; matches do not overlap. *)
Definition stripQuotes (v : string) : string :=
  let v1 := match v with
            | String c v' => if Ascii.eqb c dquote then v' else v
            | EmptyString => v
            end in
  stripTrailingQuote v1.

(** [v => v.trim().replace(re, '')]. *)
Definition cleanValue (v : string) : string := stripQuotes (JS.trim v).

Definition cleanLine (line : string) : list string :=
  cleanValue <$> splitCSV line.

(** The line feed, code unit 10. *)
Definition newline : ascii := "010"%char.

(** The callback of [dataLines.map] in [parseGoogleSheetCSV], from the
    cleaned values on. *)
Definition mapPrimary (cleanValues : list string) : option Complaint :=
  if (length cleanValues <? 1)%nat || JS.lnot (cleanValues !! 0%nat) then None
  else
    let step := JS.or_default (cleanValues !! 3%nat) "" in
    Some {| id := JS.or_default (cleanValues !! 0%nat) "";
            plannedDate := JS.or_default (cleanValues !! 1%nat) "";
            step := step;
            stepCode := JS.or_default (cleanValues !! 5%nat) "";
            fullName := JS.or_default (cleanValues !! 6%nat) "";
            signature := JS.or_default (cleanValues !! 8%nat) "";
            contact := JS.or_default (cleanValues !! 7%nat) "";
            country := JS.or_default (cleanValues !! 9%nat) "";
            improvementPhotoUrl := JS.or_default (cleanValues !! 10%nat) "";
            statusLink := JS.or_default (cleanValues !! 11%nat) "";
            notes := JS.or_default (cleanValues !! 14%nat) "N/A";
            status := getStatus step;
            equipmentName := JS.or_default (cleanValues !! 15%nat) "" |}.

(** The callback of [dataLines.map] in [parseCompletedGoogleSheetCSV]. *)
Definition mapCompleted (cleanValues : list string) : option Complaint :=
  if (length cleanValues <? 1)%nat || JS.lnot (cleanValues !! 0%nat) then None
  else
    Some {| id := JS.or_default (cleanValues !! 0%nat) "";
            fullName := JS.or_default (cleanValues !! 1%nat) "";
            signature := JS.or_default (cleanValues !! 2%nat) "";
            country := JS.or_default (cleanValues !! 3%nat) "";
            equipmentName := JS.or_default (cleanValues !! 4%nat) "";
            improvementPhotoUrl := JS.or_default (cleanValues !! 5%nat) "";
            status := Closed;
            plannedDate := "";
            step := "Closed";
            stepCode := "";
            contact := "";
            statusLink := "";
            notes := JS.or_default (cleanValues !! 6%nat) "N/A" |}.

(** [.filter(complaint => complaint !== null && !!complaint.id)]. *)
Definition keepComplaint (o : option Complaint) : option Complaint :=
  match o with
  | Some c => if JS.falsy (id c) then None else Some c
  | None => None
  end.

Definition dataLines (csvText : string) : list string :=
  JS.slice1 (JS.split newline (JS.trim csvText)).

Definition parseGoogleSheetCSV (csvText : string) : list Complaint :=
  omap keepComplaint ((fun line => mapPrimary (cleanLine line)) <$> dataLines csvText).

Definition parseCompletedGoogleSheetCSV (csvText : string) : list Complaint :=
  omap keepComplaint ((fun line => mapCompleted (cleanLine line)) <$> dataLines csvText).

(** The reconciliation inside [fetchData]: [taskIds], [uniqueCompletedTasks]
    and [combinedData]. *)
Definition taskIds (parsedTasks : list Complaint) : gset string :=
  list_to_set (id <$> parsedTasks).

Definition uniqueCompletedTasks (parsedTasks parsedCompletedTasks : list Complaint)
  : list Complaint :=
  filter (fun t => id t ∉ taskIds parsedTasks) parsedCompletedTasks.

Definition combinedData (parsedTasks parsedCompletedTasks : list Complaint)
  : list Complaint :=
  parsedTasks ++ uniqueCompletedTasks parsedTasks parsedCompletedTasks.

(** [fetchData] from the two response texts on; [None] is the thrown error
    of the content check, after which [allComplaints] is left as it was. *)
Definition fetchData (tasksCsvText completedCsvText : string)
  : option (list Complaint) :=
  if JS.includes tasksCsvText "gid must be a number" then None
  else Some (combinedData (parseGoogleSheetCSV tasksCsvText)
                          (parseCompletedGoogleSheetCSV completedCsvText)).


(** [parseDateString]: the result is the time value of the returned [Date],
    [None] is [null]. *)
Definition parseDateString (dateString : string) : option Z :=
  if JS.falsy dateString then None
  else
    match JS.split "/"%char dateString with
    | [p0; p1; p2] =>
        let day := JS.parseInt p0 in
        let month := (fun m => JS.plus m (-1)) <$> JS.parseInt p1 in
        let year := JS.parseInt p2 in
        let year := (fun y => if JS.num_lt y (JS.Fin 100) then JS.plus y 2000 else y)
                      <$> year in
        match day, month, year with
        | Some d, Some m, Some y =>
            let date := JS.Date_UTC_numbers y m d in
            if JS.strict_eq (JS.number (JS.getUTCFullYear date)) year
               && JS.strict_eq (JS.number (JS.getUTCMonth date)) month
               && JS.strict_eq (JS.number (JS.getUTCDate date)) day
            then date else None
        | _, _, _ => None
        end
    | _ => None
    end.

(** [s.replace(re, l => f l)] where [re] is, with the global flag, a word
    boundary followed by a word character: a word character is replaced
    when the character before it is not a word character, or there is
    none.  The callback gets the one matched character. *)
Fixpoint replaceWordStart (f : ascii -> ascii) (prevWord : bool) (s : string)
  : string :=
  match s with
  | EmptyString => EmptyString
  | String c s' =>
      let w := JS.isWordChar c in
      String (if w && negb prevWord then f c else c) (replaceWordStart f w s')
  end.

Definition toTitleCase (str : string) : string :=
  if JS.falsy str then ""
  else replaceWordStart JS.toUpperChar false (JS.toLowerCase str).

(** ** The derived views of [App] *)

(** [a[key]], the [status] read as its string. *)
Definition field (key : SortKey) (a : Complaint) : string :=
  match key with
  | Kid => id a
  | KplannedDate => plannedDate a
  | Kstep => step a
  | KstepCode => stepCode a
  | KfullName => fullName a
  | Ksignature => signature a
  | Kcontact => contact a
  | Kcountry => country a
  | KimprovementPhotoUrl => improvementPhotoUrl a
  | KstatusLink => statusLink a
  | Knotes => notes a
  | KequipmentName => equipmentName a
  | Kstatus => status_string (status a)
  end.

(** The last three lines of the comparator: [lt] is [valA < valB] and [gt]
    is [valA > valB]. *)
Definition byOrder (order : SortOrder) (lt gt : bool) : Z :=
  if lt then match order with asc => -1 | desc => 1 end
  else if gt then match order with asc => 1 | desc => -1 end
  else 0.

(** [isNaN(num) ? Infinity : num]. *)
Definition idNum (num : option JS.Num) : JS.Num :=
  match num with None => JS.Infinity | Some x => x end.

(** The comparator passed to [sorted.sort] in [sortedTasks]. *)
Definition compareTasks (key : SortKey) (order : SortOrder) (a b : Complaint) : Z :=
  let valA := JS.or_default (Some (field key a)) "" in
  let valB := JS.or_default (Some (field key b)) "" in
  match key with
  | Kid =>
      let numA := JS.parseInt valA in
      let numB := JS.parseInt valB in
      let valA := idNum numA in
      let valB := idNum numB in
      byOrder order (JS.num_lt valA valB) (JS.num_lt valB valA)
  | KplannedDate =>
      match parseDateString (plannedDate a) with
      | None => 1
      | Some dateA =>
          match parseDateString (plannedDate b) with
          | None => -1
          | Some dateB => byOrder order (dateA <? dateB) (dateB <? dateA)
          end
      end
  | _ => byOrder order (JS.str_lt valA valB) (JS.str_lt valB valA)
  end.

Definition sortedTasks (allComplaints : list Complaint)
    (sortConfig : option (SortKey * SortOrder)) : list Complaint :=
  match sortConfig with
  | Some (key, order) => JS.sort (compareTasks key order) allComplaints
  | None => allComplaints
  end.

Inductive StatusFilter := FilterAll | FilterStatus (s : Status).

Definition status_eqb (s1 s2 : Status) : bool :=
  match s1, s2 with
  | InProgress, InProgress | Closed, Closed => true
  | _, _ => false
  end.

(** [Object.values(task)], in the order in which [parseGoogleSheetCSV]
    writes the properties; [parseCompletedGoogleSheetCSV] writes the same
    properties in another order, which [some] does not observe. *)
Definition Object_values (task : Complaint) : list string :=
  [id task; plannedDate task; step task; stepCode task; fullName task;
   signature task; contact task; country task; improvementPhotoUrl task;
   statusLink task; notes task; status_string (status task);
   equipmentName task].

Definition matchesStatus (statusFilter : StatusFilter) (task : Complaint) : bool :=
  match statusFilter with
  | FilterAll => true
  | FilterStatus s => status_eqb (status task) s
  end.

Definition matchesCountry (selectedCountry : string) (task : Complaint) : bool :=
  JS.falsy selectedCountry || String.eqb (toTitleCase (country task)) selectedCountry.

Definition matchesComplaintType (selectedComplaintType : string) (task : Complaint)
  : bool :=
  JS.falsy selectedComplaintType
  || String.eqb (toTitleCase (JS.or_default (Some (notes task)) ""))
                selectedComplaintType.

Definition matchesSearch (searchTerm : string) (task : Complaint) : bool :=
  JS.falsy searchTerm
  || existsb (fun value => JS.includes (JS.toLowerCase value)
                                       (JS.toLowerCase searchTerm))
             (Object_values task).

Definition filteredTasks (sortedTasks : list Complaint)
    (searchTerm selectedCountry selectedComplaintType : string)
    (statusFilter : StatusFilter) : list Complaint :=
  List.filter (fun task =>
      matchesStatus statusFilter task && matchesCountry selectedCountry task
      && matchesComplaintType selectedComplaintType task
      && matchesSearch searchTerm task)
    sortedTasks.


(** ** The other utility functions and derived values *)

Definition getInitials (name : string) : string :=
  if JS.falsy name then "?"
  else
    let names := JS.split " " name in
    if (length names =? 1)%nat
    then JS.toUpperCase (JS.charAt0 (default "" (names !! 0%nat)))
    else JS.toUpperCase (JS.charAt0 (default "" (names !! 0%nat))
                         +:+ JS.charAt0 (default "" (names !! (length names - 1)%nat))).





(** [filter(Boolean)] on strings. *)
Definition truthy (s : string) : bool := negb (JS.falsy s).

Definition uniqueCountries (allComplaints : list Complaint) : list string :=
  let countryNames := List.filter truthy (country <$> allComplaints) in
  let normalizedCountries := JS.Set_values (toTitleCase <$> countryNames) in
  JS.sort JS.defaultCompare normalizedCountries.

Definition uniqueComplaintTypes (allComplaints : list Complaint) : list string :=
  let complaintTypes := List.filter truthy (notes <$> allComplaints) in
  let normalizedTypes := JS.Set_values (toTitleCase <$> complaintTypes) in
  JS.sort JS.defaultCompare normalizedTypes.

Definition inProgressCount (allComplaints : list Complaint) : nat :=
  length (List.filter (fun c => status_eqb (status c) InProgress) allComplaints).

(** The three values that [SummaryMetrics] counts up to. *)
Definition totalComplaintsValue (complaints : list Complaint) : Z :=
  Z.of_nat (length complaints).

Definition completedTasksValue (complaints : list Complaint) : Z :=
  Z.of_nat (length (List.filter (fun c => status_eqb (status c) Closed) complaints)).

Definition inProgressTasks (complaints : list Complaint) : Z :=
  totalComplaintsValue complaints - completedTasksValue complaints.

(** [TaskDetail]: the labelled values, and the ones that are rendered. *)
Definition details (task : Complaint) : list (string * string) :=
  [("Complaint ID", id task);
   ("Step Code", stepCode task);
   ("Signature Provided", if JS.falsy (signature task) then "No" else "Yes");
   ("Full Step Description", contact task);
   ("Complaint Type", notes task);
   ("Equipment/Machine", equipmentName task)].

Definition shownDetails (task : Complaint) : list (string * string) :=
  List.filter (fun item => truthy (snd item) && negb (String.eqb (snd item) "N/A"))
              (details task).

Definition SortKey_eqb (k1 k2 : SortKey) : bool :=
  match k1, k2 with
  | Kid, Kid | KplannedDate, KplannedDate | Kstep, Kstep
  | KstepCode, KstepCode | KfullName, KfullName | Ksignature, Ksignature
  | Kcontact, Kcontact | Kcountry, Kcountry
  | KimprovementPhotoUrl, KimprovementPhotoUrl | KstatusLink, KstatusLink
  | Knotes, Knotes | KequipmentName, KequipmentName | Kstatus, Kstatus => true
  | _, _ => false
  end.

(** [requestSort]: the next [sortConfig]; the row it also collapses is
    not part of this state. *)
Definition requestSort (sortConfig : option (SortKey * SortOrder)) (key : SortKey)
  : option (SortKey * SortOrder) :=
  let order :=
    match sortConfig with
    | Some (k, asc) => if SortKey_eqb k key then desc else asc
    | _ => asc
    end in
  Some (key, order).

(** [getSortIcon]: the three arrows it returns. *)
Inductive SortIcon := UpDown | Up | Down.

Definition getSortIcon (sortConfig : option (SortKey * SortOrder)) (key : SortKey)
  : SortIcon :=
  match sortConfig with
  | Some (k, order) =>
      if negb (SortKey_eqb k key) then UpDown
      else match order with asc => Up | desc => Down end
  | None => UpDown
  end.

(** ** The search on all code units *)

(** The strings above hold code units below 256.  [toLowerCase] maps a
    capital sigma by the letters around it, and that letter lies beyond
    them.  [Wide] gives the built-ins of the search on lists of code units,
    with the case mapping of the code units below 256 and of the Greek
    letters U+0391 to U+03CE. *)
Module Wide.

Definition of_string (s : string) : list Z :=
  JS.code <$> list_ascii_of_string s.

Definition between (lo hi c : Z) : bool := (lo <=? c) && (c <=? hi).

(** The characters that the rule for the final sigma skips: apostrophe,
    full stop, colon, circumflex, grave accent, and U+00A8, U+00AD, U+00AF,
    U+00B4, U+00B7, U+00B8. *)
Definition caseIgnorable (c : Z) : bool :=
  (c =? 39) || (c =? 46) || (c =? 58) || (c =? 94) || (c =? 96)
  || (c =? 168) || (c =? 173) || (c =? 175) || (c =? 180) || (c =? 183)
  || (c =? 184).

(** The cased letters: A to Z, a to z, U+00AA, U+00B5, U+00BA, U+00C0 to
    U+00FF without the multiplication and the division sign, and the Greek
    letters. *)
Definition cased (c : Z) : bool :=
  between 65 90 c || between 97 122 c || (c =? 170) || (c =? 181) || (c =? 186)
  || between 192 214 c || between 216 246 c || between 248 255 c
  || between 913 929 c || between 931 974 c.

(** The lower-case form of a letter, where it does not depend on the
    letters around it. *)
Definition lowerOf (c : Z) : Z :=
  if between 65 90 c || between 192 214 c || between 216 222 c
     || between 913 929 c || between 931 939 c
  then c + 32 else c.

(** After zero or more characters that are skipped comes a cased letter. *)
Fixpoint followedByCased (s : list Z) : bool :=
  match s with
  | [] => false
  | c :: s' => if caseIgnorable c then followedByCased s' else cased c
  end.

(** [toLowerCase] from a position on; [before] tells whether a cased
    letter comes before it, skipped characters apart.  A capital sigma,
    U+03A3, becomes the final sigma U+03C2 when a cased letter comes before
    it and none after it, and the sigma U+03C3 otherwise. *)
Fixpoint lowerFrom (before : bool) (s : list Z) : list Z :=
  match s with
  | [] => []
  | c :: s' =>
      (if (c =? 931) && before && negb (followedByCased s') then 962
       else lowerOf c)
      :: lowerFrom (if caseIgnorable c then before else cased c) s'
  end.

Definition toLowerCase (s : list Z) : list Z := lowerFrom false s.

Fixpoint startsWith (s t : list Z) {struct t} : bool :=
  match t, s with
  | [], _ => true
  | b :: t', a :: s' => (a =? b) && startsWith s' t'
  | _ :: _, [] => false
  end.

Fixpoint includes (s t : list Z) : bool :=
  startsWith s t ||
  match s with
  | [] => false
  | _ :: s' => includes s' t
  end.

Definition falsy (s : list Z) : bool :=
  match s with [] => true | _ :: _ => false end.

(** [matchesSearch] of [filteredTasks], on the values of a record. *)
Definition matchesSearch (searchTerm : list Z) (values : list (list Z)) : bool :=
  falsy searchTerm
  || existsb (fun value => includes (toLowerCase value) (toLowerCase searchTerm))
             values.

End Wide.

(** ** What the specification's words mean *)

(** [t] occurs in [s] as a substring when case is ignored. *)
Definition containsCI (s t : string) : Prop :=
  exists pre mid post,
    s = pre +:+ mid +:+ post /\ JS.toLowerCase mid = JS.toLowerCase t.

(** The classifier rule: closed exactly when the step holds the word
    complete, whatever the case. *)
Definition statusRule (c : Complaint) : Prop :=
  status c = Closed <-> containsCI (step c) "complete".

(** Field [i] of a row is missing or holds the empty string. *)
Definition blankAt (cleanValues : list string) (i : nat) : Prop :=
  cleanValues !! i = None \/ cleanValues !! i = Some "".

(** Field 0 of a line as the row parser splits it, before cleaning. *)
Definition rawField0 (line : string) : string := default "" (splitCSV line !! 0%nat).

(** The columns of the two layouts with the field each one feeds, apart
    from the [notes] column. *)
Definition primaryColumns : list (nat * (Complaint -> string)) :=
  [(0%nat, id); (1%nat, plannedDate); (3%nat, step); (5%nat, stepCode);
   (6%nat, fullName); (8%nat, signature); (7%nat, contact); (9%nat, country);
   (10%nat, improvementPhotoUrl); (11%nat, statusLink);
   (15%nat, equipmentName)].

Definition completedColumns : list (nat * (Complaint -> string)) :=
  [(0%nat, id); (1%nat, fullName); (2%nat, signature); (3%nat, country);
   (4%nat, equipmentName); (5%nat, improvementPhotoUrl)].

(** A text made of the given lines, and a record with only some fields
    filled: the inputs of the examples. *)
Definition joinLines (ls : list string) : string :=
  match ls with
  | [] => ""
  | l :: ls' => fold_left (fun acc x => acc +:+ String newline x) ls' l
  end.

Definition quoted (s : string) : string :=
  String dquote (s +:+ String dquote "").

Definition completedRecord (i : string) : Complaint :=
  mkComplaint i "" "Closed" "" "" "" "" "" "" "" "N/A" "" Closed.

Definition withId (i : string) : Complaint :=
  mkComplaint i "" "" "" "" "" "" "" "" "" "N/A" "" InProgress.

Definition withDate (i d : string) : Complaint :=
  mkComplaint i d "" "" "" "" "" "" "" "" "N/A" "" InProgress.





(** The string forms of the thirteen fields of a record. *)
Definition fieldStrings (task : Complaint) : list string :=
  [id task; plannedDate task; step task; stepCode task; fullName task;
   signature task; contact task; country task; improvementPhotoUrl task;
   statusLink task; notes task; equipmentName task;
   match status task with InProgress => "in-progress" | Closed => "closed" end].

(** The values of a record whose equipment name is the capital alpha and
    the capital sigma, its other fields being those of [withId "7"]. *)
Definition greekValues : list (list Z) :=
  <[12%nat := [913; 931]]> (Wide.of_string <$> Object_values (withId "7")).

(** [x] may stand before [y] in the result of a sort: [comparefn] does not
    put [y] first. *)
Definition mayPrecede {A : Type} (comparefn : A -> A -> Z) (x y : A) : Prop :=
  ~ comparefn y x < 0.

(** The order that sorting by [id] is to produce: numbers by value, and
    [Infinity], which stands for an id without a leading integer, last. *)
Definition num_le (x y : JS.Num) : Prop :=
  match x, y with
  | JS.Fin a, JS.Fin b => a <= b
  | _, JS.Infinity | JS.NegInfinity, _ => True
  | JS.Infinity, _ | _, JS.NegInfinity => False
  end.

Definition idKey (c : Complaint) : JS.Num := idNum (JS.parseInt (id c)).

(** The order by the integer that an id starts with, as an integer: ids
    without one last. *)
Definition integerOrder (a b : Complaint) : Prop :=
  match JS.mathInt (id a), JS.mathInt (id b) with
  | Some x, Some y => x <= y
  | _, None => True
  | None, Some _ => False
  end.

Definition idOrder (order : SortOrder) (a b : Complaint) : Prop :=
  match order with
  | asc => num_le (idKey a) (idKey b)
  | desc => num_le (idKey b) (idKey a)
  end.

(** The order that sorting by [plannedDate] is to produce: [a] may stand
    before [b] when both dates parse and are in the requested order, or
    when the date of [b] does not parse. *)
Definition dateOrder (order : SortOrder) (a b : Complaint) : Prop :=
  match parseDateString (plannedDate a), parseDateString (plannedDate b) with
  | Some ta, Some tb => match order with asc => ta <= tb | desc => tb <= ta end
  | _, None => True
  | None, Some _ => False
  end.

(** A leap year of the Gregorian calendar. *)
Definition isLeap (y : Z) : bool :=
  (y mod 4 =? 0) && (negb (y mod 100 =? 0) || (y mod 400 =? 0)).

(** The length of month [M] (1 to 12) of year [y]. *)
Definition daysInMonth (y M : Z) : Z :=
  match M with
  | 1 | 3 | 5 | 7 | 8 | 10 | 12 => 31
  | 4 | 6 | 9 | 11 => 30
  | 2 => if isLeap y then 29 else 28
  | _ => 0
  end.

(** Day [D] of month [M] of year [y] exists. *)
Definition validDate (y M D : Z) : Prop :=
  1 <= M <= 12 /\ 1 <= D <= daysInMonth y M.

(** The date built from year [Y], month index [m] and day [D] reads back
    as the same year, month index and day. *)
Definition roundTrips (Y m D : Z) : Prop :=
  JS.getUTCFullYear (JS.Date_UTC Y m D) = Some Y
  /\ JS.getUTCMonth (JS.Date_UTC Y m D) = Some m
  /\ JS.getUTCDate (JS.Date_UTC Y m D) = Some D.

(** The year after [if (year < 100) year += 2000]. *)
Definition normYear (y : Z) : Z := if y <? 100 then y + 2000 else y.

(** A part of a date is numeric in the plain sense: decimal digits only, and
    at least one. *)
Fixpoint allDigits (s : string) : bool :=
  match s with
  | EmptyString => true
  | String c s' => JS.isDigit c && allDigits s'
  end.

Definition isNumeric (s : string) : bool := negb (JS.falsy s) && allDigits s.

(** Character [c] occurs in [s]. *)
Fixpoint occurs (c : ascii) (s : string) : bool :=
  match s with
  | EmptyString => false
  | String a s' => Ascii.eqb a c || occurs c s'
  end.

(** A line written the way the sheet exports it: every field in double
    quotes, the fields separated by commas. *)
Definition exportLine (fields : list string) : string :=
  String.concat "," (quoted <$> fields).

(** A text written the way the sheet exports a table: a header line and one
    line for each row. *)
Definition exportText (header : list string) (rows : list (list string)) : string :=
  joinLines (exportLine header :: (exportLine <$> rows)).

(** No cell of the row holds a character of [cs], and the row has a cell. *)
Definition plainRow (cs : list ascii) (row : list string) : bool :=
  negb (length row =? 0)%nat
  && forallb (fun f => forallb (fun c => negb (occurs c f)) cs) row.

(** The lines after the first, each led by its line feed. *)
Definition restLines (ls : list string) : string :=
  fold_right (fun x acc => String newline x +:+ acc) "" ls.

(** The rows as each mapping turns them into records. *)
Definition recordsOf (mapRow : list string -> option Complaint)
    (rows : list (list string)) : list Complaint :=
  omap (fun row => keepComplaint (mapRow row)) rows.

(** [a] is not after [b] when their strings [f a] and [f b] are compared by
    code units. *)
Definition textLe {A : Type} (f : A -> string) (a b : A) : Prop :=
  JS.str_lt (f b) (f a) = false.

(** The order that sorting by a key other than [id] and [plannedDate] is
    to produce: the fields compared as strings, by code units. *)
Definition textOrder (key : SortKey) (order : SortOrder) (a b : Complaint) : Prop :=
  match order with
  | asc => JS.str_lt (field key b) (field key a) = false
  | desc => JS.str_lt (field key a) (field key b) = false
  end.

(** Every character of [s] passes [p]. *)
Fixpoint allChars (p : ascii -> bool) (s : string) : bool :=
  match s with
  | EmptyString => true
  | String c s' => p c && allChars p s'
  end.

(** The text is in the ASCII range: every code unit of [s] is below 128. *)
Definition asciiText (s : string) : bool :=
  allChars (fun c => JS.code c <? 128) s.

(** The last of the words, the first when there is only one. *)
Definition lastWord (first : string) (others : list string) : string :=
  List.last others first.



(** The year, month and day that [parseDateString] reads in a string, the
    year after the two-digit rule. *)
Definition dateParts (dateString : string) : option (Z * Z * Z) :=
  match JS.split "/" dateString with
  | [p0; p1; p2] =>
      match JS.parseInt p0, JS.parseInt p1, JS.parseInt p2 with
      | Some (JS.Fin d), Some (JS.Fin mo), Some (JS.Fin y) => Some (normYear y, mo, d)
      | _, _, _ => None
      end
  | _ => None
  end.

(** Calendar order of year, month and day. *)
Definition earlier (a b : Z * Z * Z) : Prop :=
  let '(Y1, M1, D1) := a in
  let '(Y2, M2, D2) := b in
  Y1 < Y2 \/ (Y1 = Y2 /\ (M1 < M2 \/ (M1 = M2 /\ D1 < D2))).

(** ** The embedding on small inputs *)

Example trim_example :
  JS.trim (String newline "  a b  ") = "a b".
Proof. reflexivity. Qed.

Example split_example :
  JS.split "/" "31/02/24" = ["31"; "02"; "24"] /\ JS.split "/" "" = [""].
Proof. split; reflexivity. Qed.

Example splitCSV_example :
  splitCSV ("a, " +:+ quoted "b,c" +:+ ",,d") = ["a"; " " +:+ quoted "b,c"; ""; "d"]
  /\ cleanLine ("a, " +:+ quoted "b,c" +:+ ",,d") = ["a"; "b,c"; ""; "d"].
Proof. split; reflexivity. Qed.

Example parseInt_example :
  JS.parseInt "  42abc" = Some (JS.Fin 42) /\ JS.parseInt "-7" = Some (JS.Fin (-7))
  /\ JS.parseInt "abc" = None /\ JS.parseInt "" = None
  /\ JS.parseInt "1e3" = Some (JS.Fin 1)
  /\ JS.parseInt "9007199254740993" = Some (JS.Fin 9007199254740992)
  /\ JS.parseInt "9007199254740995" = Some (JS.Fin 9007199254740996)
  /\ JS.parseInt "-36028797018963971" = Some (JS.Fin (-36028797018963968)).
Proof. repeat split; reflexivity. Qed.

Example Date_UTC_example :
  JS.Date_UTC 1970 0 1 = Some 0
  /\ JS.Date_UTC 2024 1 29 = Some 1709164800000
  /\ JS.getUTCMonth (JS.Date_UTC 2023 1 29) = Some 2
  /\ JS.getUTCDate (JS.Date_UTC 2023 1 29) = Some 1
  /\ JS.Date_UTC 275760 8 13 = Some 8640000000000000
  /\ JS.Date_UTC 275760 8 14 = None.
Proof. repeat split; vm_compute; reflexivity. Qed.

Example getStatus_example :
  getStatus "Work COMPLETEd" = Closed /\ getStatus "" = InProgress
  /\ getStatus "Closed" = InProgress.
Proof. repeat split; reflexivity. Qed.

Example toTitleCase_example :
  toTitleCase "packaging DEFECT" = "Packaging Defect"
  /\ toTitleCase "o'neil 3rd" = "O'Neil 3rd" /\ toTitleCase "" = "".
Proof. repeat split; reflexivity. Qed.

(** ** Strings *)

Lemma append_nil_l (s : string) : "" +:+ s = s.
Proof. reflexivity. Qed.

Lemma append_cons (c : ascii) (s t : string) :
  String c s +:+ t = String c (s +:+ t).
Proof. reflexivity. Qed.

Ltac sapp := rewrite ?append_cons, ?append_nil_l in *; simpl.

Lemma map_chars_app f (a b : string) :
  JS.map_chars f (a +:+ b) = JS.map_chars f a +:+ JS.map_chars f b.
Proof. induction a as [|x a IH]; sapp; [reflexivity | now rewrite IH]. Qed.

Lemma map_chars_split f (s x y : string) :
  JS.map_chars f s = x +:+ y ->
  exists a b, s = a +:+ b /\ JS.map_chars f a = x /\ JS.map_chars f b = y.
Proof.
  revert s; induction x as [|c x IH]; intros s H; sapp.
  - exists "", s. auto.
  - destruct s as [|d s]; simpl in H; [discriminate|].
    injection H as Hc Hs. destruct (IH _ Hs) as (a & b & -> & Ha & Hb).
    exists (String d a), b. sapp. now rewrite Hc, Ha.
Qed.

Lemma startsWith_spec (s t : string) :
  JS.startsWith s t = true <-> exists post, s = t +:+ post.
Proof.
  revert s; induction t as [|b t IH]; intros s; simpl.
  - split; [exists s; reflexivity | reflexivity].
  - destruct s as [|a s].
    + split; [discriminate | intros [post H]; discriminate].
    + rewrite andb_true_iff, Ascii.eqb_eq, IH. split.
      * intros [-> [post ->]]. now exists post.
      * intros [post H]. sapp. injection H as -> ->.
        split; [reflexivity | now exists post].
Qed.

Lemma includes_spec (s t : string) :
  JS.includes s t = true <-> exists pre post, s = pre +:+ t +:+ post.
Proof.
  induction s as [|a s IH]; simpl.
  - rewrite orb_false_r, startsWith_spec. split.
    + intros [post H]. now exists "", post.
    + intros (pre & post & H). destruct pre; sapp; [now exists post | discriminate].
  - rewrite orb_true_iff, startsWith_spec, IH. split.
    + intros [[post H] | (pre & post & H)].
      * now exists "", post.
      * exists (String a pre), post. sapp. now rewrite H.
    + intros (pre & post & H). destruct pre as [|p pre]; sapp.
      * left. now exists post.
      * right. injection H as _ ->. now exists pre, post.
Qed.

(** Searching the lowered text for the lowered term is the search for the
    term with case ignored. *)
Lemma includes_lower_containsCI (s t : string) :
  JS.includes (JS.toLowerCase s) (JS.toLowerCase t) = true <-> containsCI s t.
Proof.
  rewrite includes_spec. unfold containsCI, JS.toLowerCase. split.
  - intros (pre & post & H).
    apply map_chars_split in H as (a & r & -> & Ha & Hr).
    apply map_chars_split in Hr as (m & b & -> & Hm & Hb).
    now exists a, m, b.
  - intros (pre & mid & post & -> & Hm).
    exists (JS.map_chars JS.toLowerChar pre), (JS.map_chars JS.toLowerChar post).
    now rewrite !map_chars_app, Hm.
Qed.

Lemma code_inj (a b : ascii) : JS.code a = JS.code b -> a = b.
Proof.
  unfold JS.code. intros H. apply N2Z.inj in H.
  rewrite <- (ascii_N_embedding a), <- (ascii_N_embedding b). now rewrite H.
Qed.

Lemma code_range (c : ascii) : 0 <= JS.code c < 256.
Proof.
  unfold JS.code. pose proof (N_ascii_bounded c). lia.
Qed.

Lemma falsy_iff (s : string) : JS.falsy s = true <-> s = "".
Proof. destruct s; simpl; split; congruence. Qed.

Lemma falsy_false_iff (s : string) : JS.falsy s = false <-> s <> "".
Proof. destruct s; simpl; split; congruence. Qed.


(** ** Status classifier *)

Lemma getStatus_rule (step : string) :
  getStatus step = Closed <-> containsCI step "complete".
Proof.
  unfold getStatus. rewrite <- includes_lower_containsCI.
  change (JS.toLowerCase "complete") with "complete".
  destruct step as [|c s]; [simpl; split; discriminate|].
  change (JS.falsy (String c s)) with false; cbv iota.
  destruct (JS.includes _ _); split; congruence.
Qed.

(** ** Schema mapping *)

Lemma mapPrimary_Some (cleanValues : list string) (c : Complaint) :
  mapPrimary cleanValues = Some c ->
  JS.lnot (cleanValues !! 0%nat) = false /\
  step c = JS.or_default (cleanValues !! 3%nat) "" /\
  status c = getStatus (step c).
Proof.
  unfold mapPrimary. destruct (_ || _) eqn:E; [discriminate|].
  apply orb_false_iff in E as [_ E]. intros [= <-]. simpl. auto.
Qed.

Lemma mapCompleted_Some (cleanValues : list string) (c : Complaint) :
  mapCompleted cleanValues = Some c ->
  JS.lnot (cleanValues !! 0%nat) = false /\ step c = "Closed" /\ status c = Closed.
Proof.
  unfold mapCompleted. destruct (_ || _) eqn:E; [discriminate|].
  apply orb_false_iff in E as [_ E]. intros [= <-]. simpl. auto.
Qed.

Lemma keepComplaint_Some (o : option Complaint) (c : Complaint) :
  keepComplaint o = Some c <-> o = Some c /\ id c <> "".
Proof.
  unfold keepComplaint. destruct o as [c'|]; [|split; [discriminate | intros [? _]; discriminate]].
  destruct (JS.falsy (id c')) eqn:E.
  - apply falsy_iff in E. split; [discriminate | intros [[= ->] ?]; contradiction].
  - apply falsy_false_iff in E. split; [intros [= ->]; auto | intros [[= ->] _]; reflexivity].
Qed.

Lemma elem_of_parseGoogleSheetCSV (csvText : string) (c : Complaint) :
  c ∈ parseGoogleSheetCSV csvText <->
  exists line, line ∈ dataLines csvText /\
               mapPrimary (cleanLine line) = Some c /\ id c <> "".
Proof.
  unfold parseGoogleSheetCSV. rewrite list_elem_of_omap. split.
  - intros (o & Ho & Hk). apply list_elem_of_fmap in Ho as (line & -> & Hl).
    apply keepComplaint_Some in Hk as [Hm Hid]. eauto.
  - intros (line & Hl & Hm & Hid). exists (Some c). split.
    + apply list_elem_of_fmap. exists line. auto.
    + apply keepComplaint_Some. auto.
Qed.

Lemma elem_of_parseCompletedGoogleSheetCSV (csvText : string) (c : Complaint) :
  c ∈ parseCompletedGoogleSheetCSV csvText <->
  exists line, line ∈ dataLines csvText /\
               mapCompleted (cleanLine line) = Some c /\ id c <> "".
Proof.
  unfold parseCompletedGoogleSheetCSV. rewrite list_elem_of_omap. split.
  - intros (o & Ho & Hk). apply list_elem_of_fmap in Ho as (line & -> & Hl).
    apply keepComplaint_Some in Hk as [Hm Hid]. eauto.
  - intros (line & Hl & Hm & Hid). exists (Some c). split.
    + apply list_elem_of_fmap. exists line. auto.
    + apply keepComplaint_Some. auto.
Qed.

(** ** Reconciliation *)

Lemma elem_of_taskIds (parsedTasks : list Complaint) (i : string) :
  i ∈ taskIds parsedTasks <-> i ∈ id <$> parsedTasks.
Proof. unfold taskIds. apply elem_of_list_to_set. Qed.

Lemma uniqueCompletedTasks_filter (P S : list Complaint) :
  uniqueCompletedTasks P S = filter (fun t => id t ∉ id <$> P) S.
Proof.
  unfold uniqueCompletedTasks. apply list_filter_iff.
  intros t. now rewrite elem_of_taskIds.
Qed.

Lemma fetchData_Some (t1 t2 : string) (l : list Complaint) :
  fetchData t1 t2 = Some l ->
  l = combinedData (parseGoogleSheetCSV t1) (parseCompletedGoogleSheetCSV t2).
Proof. unfold fetchData. destruct (JS.includes _ _); congruence. Qed.

Lemma elem_of_combinedData (P S : list Complaint) (c : Complaint) :
  c ∈ combinedData P S <-> c ∈ P \/ (c ∈ S /\ id c ∉ id <$> P).
Proof.
  unfold combinedData. rewrite elem_of_app, uniqueCompletedTasks_filter.
  rewrite list_elem_of_filter. tauto.
Qed.

(** ** Claims on the status and on reconciliation *)

(** C1, as stated, fails: a record of the secondary mapping has the step
    [Closed], which does not hold the word complete, and the status closed. *)
Lemma status_rule_fails_on_secondary :
  fetchData "id" (joinLines ["id"; "7"]) = Some [completedRecord "7"]
  /\ ~ statusRule (completedRecord "7").
Proof.
  split; [vm_compute; reflexivity|].
  unfold statusRule. intros [H _]. specialize (H eq_refl).
  apply includes_lower_containsCI in H. vm_compute in H. discriminate.
Qed.

(** C1, amended: in the unified collection a record of the primary mapping
    has status closed exactly when its step holds complete with case
    ignored and in-progress otherwise, and a record of the secondary mapping
    has the step [Closed] and the status closed. *)
Theorem status_by_source (tasksCsvText completedCsvText : string)
    (l : list Complaint) (c : Complaint) :
  fetchData tasksCsvText completedCsvText = Some l ->
  c ∈ l ->
  (c ∈ parseGoogleSheetCSV tasksCsvText /\ statusRule c)
  \/ (c ∈ parseCompletedGoogleSheetCSV completedCsvText
      /\ step c = "Closed" /\ status c = Closed).
Proof.
  intros Hf Hc. apply fetchData_Some in Hf as ->.
  apply elem_of_combinedData in Hc as [Hp | [Hs _]].
  - left. split; [assumption|].
    apply elem_of_parseGoogleSheetCSV in Hp as (line & _ & Hm & _).
    apply mapPrimary_Some in Hm as (_ & _ & Hst).
    unfold statusRule. rewrite Hst. apply getStatus_rule.
  - right. split; [assumption|].
    apply elem_of_parseCompletedGoogleSheetCSV in Hs as (line & _ & Hm & _).
    apply mapCompleted_Some in Hm as (_ & Hstep & Hst). auto.
Qed.

Lemma status_by_source_witness :
  let c := mkComplaint "1" "" "Work COMPLETEd" "" "" "" "" "" "" "" "N/A" "" Closed in
  (c ∈ parseGoogleSheetCSV (joinLines ["h"; "1,,,Work COMPLETEd"]) /\ statusRule c)
  \/ (c ∈ parseCompletedGoogleSheetCSV (joinLines ["h"; "7"])
      /\ step c = "Closed" /\ status c = Closed).
Proof.
  intros c.
  apply (status_by_source (joinLines ["h"; "1,,,Work COMPLETEd"])
           (joinLines ["h"; "7"]) [c; completedRecord "7"] c).
  - vm_compute. reflexivity.
  - left.
Defined.

(** C2: the unified collection is all of P in order, then the records of S
    whose id is the id of no record of P, in the order of S; a record whose
    id occurs in P stands in the part that is P. *)
Theorem combinedData_spec (P S : list Complaint) :
  combinedData P S = P ++ filter (fun s => id s ∉ id <$> P) S
  /\ (forall (i : nat) (r : Complaint),
        combinedData P S !! i = Some r -> id r ∈ id <$> P ->
        (i < length P)%nat /\ P !! i = Some r).
Proof.
  split.
  - unfold combinedData. now rewrite uniqueCompletedTasks_filter.
  - unfold combinedData. rewrite uniqueCompletedTasks_filter.
    intros i r Hi Hid. apply lookup_app_Some in Hi as [Hi | [Hlen Hi]].
    + split; [|assumption]. eapply lookup_lt_Some; eassumption.
    + exfalso. apply list_elem_of_lookup_2 in Hi.
      apply list_elem_of_filter in Hi as [Hn _]. contradiction.
Qed.

Lemma combinedData_spec_witness :
  combinedData [withId "1"; withId "2"] [completedRecord "2"; completedRecord "3"]
  = [withId "1"; withId "2"; completedRecord "3"]
  /\ ((1 < 2)%nat /\ [withId "1"; withId "2"] !! 1%nat = Some (withId "2")).
Proof.
  split; [vm_compute; reflexivity|].
  apply (proj2 (combinedData_spec [withId "1"; withId "2"]
                  [completedRecord "2"; completedRecord "3"]) 1%nat (withId "2")).
  - vm_compute. reflexivity.
  - simpl. right. left.
Defined.

(** C3, as stated, fails: two data lines of the primary text with the same
    id give two records with that id. *)
Lemma duplicate_id_in_primary_text :
  fetchData (joinLines ["id,date"; "1,a"; "1,b"]) "id"
  = Some [withDate "1" "a"; withDate "1" "b"]
  /\ ~ NoDup (id <$> [withDate "1" "a"; withDate "1" "b"]).
Proof.
  split; [vm_compute; reflexivity|].
  simpl. intros H. apply NoDup_cons in H as [H _]. apply H. left.
Qed.

(** C3, amended: when the ids of the primary mapping are pairwise distinct
    and the ids of the secondary mapping are pairwise distinct, no two
    records of the unified collection have the same id. *)
Theorem unified_ids_distinct (tasksCsvText completedCsvText : string)
    (l : list Complaint) :
  fetchData tasksCsvText completedCsvText = Some l ->
  NoDup (id <$> parseGoogleSheetCSV tasksCsvText) ->
  NoDup (id <$> parseCompletedGoogleSheetCSV completedCsvText) ->
  NoDup (id <$> l)
  /\ (forall (i j : nat) (ci cj : Complaint),
        l !! i = Some ci -> l !! j = Some cj -> id ci = id cj -> i = j).
Proof.
  intros Hf HP HS. apply fetchData_Some in Hf as ->.
  set (P := parseGoogleSheetCSV tasksCsvText) in *.
  set (S := parseCompletedGoogleSheetCSV completedCsvText) in *.
  assert (Hnd : NoDup (id <$> combinedData P S)).
  { unfold combinedData. rewrite uniqueCompletedTasks_filter, fmap_app.
    apply NoDup_app. split; [assumption|]. split.
    - intros x Hx Hx'. apply list_elem_of_fmap in Hx' as (t & -> & Ht).
      apply list_elem_of_filter in Ht as [Hn _]. contradiction.
    - clear HP. induction S as [|t S IH]; [constructor|].
      apply NoDup_cons in HS as [Ht HS]. rewrite filter_cons.
      destruct (decide _); [|auto].
      rewrite fmap_cons. apply NoDup_cons. split; [|auto].
      intros Hin. apply Ht. apply list_elem_of_fmap in Hin as (t' & -> & Ht').
      apply list_elem_of_filter in Ht' as [_ Ht']. now apply list_elem_of_fmap_2. }
  split; [assumption|].
  intros i j ci cj Hi Hj Heq.
  eapply NoDup_lookup; [exact Hnd | |]; rewrite list_lookup_fmap.
  - rewrite Hi. reflexivity.
  - rewrite Hj. simpl. now rewrite Heq.
Qed.

Lemma unified_ids_distinct_witness :
  NoDup (id <$> [withId "1"; withId "2"; completedRecord "3"])
  /\ (forall (i j : nat) (ci cj : Complaint),
        [withId "1"; withId "2"; completedRecord "3"] !! i = Some ci ->
        [withId "1"; withId "2"; completedRecord "3"] !! j = Some cj ->
        id ci = id cj -> i = j).
Proof.
  apply (unified_ids_distinct (joinLines ["id"; "1"; "2"])
           (joinLines ["id"; "2"; "3"])).
  - vm_compute. reflexivity.
  - apply (bool_decide_unpack _). vm_compute. exact I.
  - apply (bool_decide_unpack _). vm_compute. exact I.
Defined.

(** ** Claims on the schema mapping *)

Lemma splitCSV_aux_cons (s : string) :
  exists h t, fst (splitCSV_aux s) = h :: t.
Proof.
  induction s as [|c s (h & t & IH)]; simpl; [eauto|].
  destruct (splitCSV_aux s) as [r even]; simpl in IH; subst r.
  destruct (_ && _); simpl; eauto.
Qed.

Lemma cleanLine_field0 (line : string) :
  cleanLine line !! 0%nat = Some (cleanValue (rawField0 line)).
Proof.
  unfold cleanLine, rawField0, splitCSV.
  destruct (splitCSV_aux_cons line) as (h & t & ->). reflexivity.
Qed.

Lemma or_default_blank (cleanValues : list string) (i : nat) (d : string) :
  blankAt cleanValues i -> JS.or_default (cleanValues !! i) d = d.
Proof. intros [-> | ->]; reflexivity. Qed.

Lemma mapPrimary_defined (cleanValues : list string) :
  JS.lnot (cleanValues !! 0%nat) = false ->
  exists c, mapPrimary cleanValues = Some c
    /\ id c = JS.or_default (cleanValues !! 0%nat) ""
    /\ (forall i get, (i, get) ∈ primaryColumns ->
          get c = JS.or_default (cleanValues !! i) "")
    /\ notes c = JS.or_default (cleanValues !! 14%nat) "N/A"
    /\ status c = getStatus (step c).
Proof.
  intros H0. unfold mapPrimary.
  assert (Hlen : (length cleanValues <? 1)%nat = false).
  { destruct cleanValues; [discriminate | reflexivity]. }
  rewrite Hlen, H0. simpl. eexists. split; [reflexivity|]. simpl.
  repeat split; try reflexivity.
  intros i get Hin. unfold primaryColumns in Hin.
  repeat (apply elem_of_cons in Hin as [[= -> ->] | Hin]; [reflexivity|]).
  inversion Hin.
Qed.

Lemma mapCompleted_defined (cleanValues : list string) :
  JS.lnot (cleanValues !! 0%nat) = false ->
  exists c, mapCompleted cleanValues = Some c
    /\ id c = JS.or_default (cleanValues !! 0%nat) ""
    /\ (forall i get, (i, get) ∈ completedColumns ->
          get c = JS.or_default (cleanValues !! i) "")
    /\ notes c = JS.or_default (cleanValues !! 6%nat) "N/A"
    /\ (plannedDate c = "" /\ step c = "Closed" /\ stepCode c = ""
        /\ contact c = "" /\ statusLink c = "" /\ status c = Closed).
Proof.
  intros H0. unfold mapCompleted.
  assert (Hlen : (length cleanValues <? 1)%nat = false).
  { destruct cleanValues; [discriminate | reflexivity]. }
  rewrite Hlen, H0. simpl. eexists. split; [reflexivity|]. simpl.
  repeat split; try reflexivity.
  intros i get Hin. unfold completedColumns in Hin.
  repeat (apply elem_of_cons in Hin as [[= -> ->] | Hin]; [reflexivity|]).
  inversion Hin.
Qed.

Lemma not_field0 (line : string) :
  JS.lnot (cleanLine line !! 0%nat) = JS.falsy (cleanValue (rawField0 line)).
Proof. now rewrite cleanLine_field0. Qed.

Lemma or_default_field0 (line : string) :
  cleanValue (rawField0 line) <> "" ->
  JS.or_default (cleanLine line !! 0%nat) "" = cleanValue (rawField0 line).
Proof.
  intros H. rewrite cleanLine_field0. simpl.
  destruct (cleanValue _); [contradiction | reflexivity].
Qed.

(** C8, as stated, fails, whether field 0 is read before or after the
    quotes are removed.  Field 0 of the line made of two double quotes, a
    comma and [x] is not empty after trimming (it is the two quotes), and
    neither mapping produces a record for it.  Field 0 of the line made of
    a quoted space, a comma and [x] is a space once cleaned, which trimming
    would empty, and both mappings produce a record with that id. *)
Lemma identity_test_is_not_trimming :
  let line1 := quoted "" +:+ ",x" in
  let line2 := quoted " " +:+ ",x" in
  (JS.trim (rawField0 line1) = quoted ""
   /\ JS.falsy (JS.trim (rawField0 line1)) = false
   /\ keepComplaint (mapPrimary (cleanLine line1)) = None
   /\ keepComplaint (mapCompleted (cleanLine line1)) = None)
  /\ (cleanLine line2 = [" "; "x"]
      /\ JS.trim " " = ""
      /\ id <$> keepComplaint (mapPrimary (cleanLine line2)) = Some " "
      /\ id <$> keepComplaint (mapCompleted (cleanLine line2)) = Some " ").
Proof. vm_compute. repeat split. Qed.

(** C8, amended: a data line produces a record, under the primary and under
    the secondary mapping, exactly when its field 0 is not empty after
    cleaning, that is after trimming and then removing one leading and one
    trailing double quote; the other fields play no part. *)
Theorem record_iff_identity (line : string) :
  (is_Some (keepComplaint (mapPrimary (cleanLine line)))
   <-> cleanValue (rawField0 line) <> "")
  /\ (is_Some (keepComplaint (mapCompleted (cleanLine line)))
      <-> cleanValue (rawField0 line) <> "").
Proof.
  split; split.
  - intros [c Hc]. apply keepComplaint_Some in Hc as [Hm _].
    apply mapPrimary_Some in Hm as (H0 & _). rewrite not_field0 in H0.
    now apply falsy_false_iff.
  - intros Hne. assert (H0 := Hne). apply falsy_false_iff in H0.
    rewrite <- not_field0 in H0.
    destruct (mapPrimary_defined _ H0) as (c & Hm & Hid & _).
    exists c. apply keepComplaint_Some. split; [assumption|].
    now rewrite Hid, or_default_field0.
  - intros [c Hc]. apply keepComplaint_Some in Hc as [Hm _].
    apply mapCompleted_Some in Hm as (H0 & _). rewrite not_field0 in H0.
    now apply falsy_false_iff.
  - intros Hne. assert (H0 := Hne). apply falsy_false_iff in H0.
    rewrite <- not_field0 in H0.
    destruct (mapCompleted_defined _ H0) as (c & Hm & Hid & _).
    exists c. apply keepComplaint_Some. split; [assumption|].
    now rewrite Hid, or_default_field0.
Qed.

(** C10: a data line whose first field is not empty after cleaning is
    mapped, however few fields it has; a column that is missing or empty
    gives the empty string in its field, and [N/A] in [notes]. *)
Theorem short_row_defaults (line : string) :
  cleanValue (rawField0 line) <> "" ->
  (exists c, keepComplaint (mapPrimary (cleanLine line)) = Some c
     /\ (forall i get, (i, get) ∈ primaryColumns ->
           blankAt (cleanLine line) i -> get c = "")
     /\ (blankAt (cleanLine line) 14 -> notes c = "N/A"))
  /\ (exists c, keepComplaint (mapCompleted (cleanLine line)) = Some c
        /\ (forall i get, (i, get) ∈ completedColumns ->
              blankAt (cleanLine line) i -> get c = "")
        /\ (blankAt (cleanLine line) 6 -> notes c = "N/A")).
Proof.
  intros Hne. assert (H0 := Hne). apply falsy_false_iff in H0.
  rewrite <- not_field0 in H0. split.
  - destruct (mapPrimary_defined _ H0) as (c & Hm & Hid & Hcols & Hnotes & _).
    exists c. split; [|split].
    + apply keepComplaint_Some. split; [assumption|].
      now rewrite Hid, or_default_field0.
    + intros i get Hin Hb. rewrite (Hcols i get Hin). now apply or_default_blank.
    + intros Hb. rewrite Hnotes. now apply or_default_blank.
  - destruct (mapCompleted_defined _ H0) as (c & Hm & Hid & Hcols & Hnotes & _).
    exists c. split; [|split].
    + apply keepComplaint_Some. split; [assumption|].
      now rewrite Hid, or_default_field0.
    + intros i get Hin Hb. rewrite (Hcols i get Hin). now apply or_default_blank.
    + intros Hb. rewrite Hnotes. now apply or_default_blank.
Qed.

Lemma short_row_defaults_witness :
  (exists c, keepComplaint (mapPrimary (cleanLine "7")) = Some c
     /\ (forall i get, (i, get) ∈ primaryColumns ->
           blankAt (cleanLine "7") i -> get c = "")
     /\ (blankAt (cleanLine "7") 14 -> notes c = "N/A"))
  /\ (exists c, keepComplaint (mapCompleted (cleanLine "7")) = Some c
        /\ (forall i get, (i, get) ∈ completedColumns ->
              blankAt (cleanLine "7") i -> get c = "")
        /\ (blankAt (cleanLine "7") 6 -> notes c = "N/A")).
Proof. apply (short_row_defaults "7"). vm_compute. discriminate. Defined.

(** ** Filter and search *)

Lemma existsb_elem_of {A} (f : A -> bool) (l : list A) :
  existsb f l = true <-> exists x, x ∈ l /\ f x = true.
Proof.
  rewrite existsb_exists. split; intros (x & Hx & Hf); exists x;
    (split; [now apply list_elem_of_In | assumption]).
Qed.

Lemma fieldStrings_values (task : Complaint) (v : string) :
  v ∈ fieldStrings task <-> v ∈ Object_values task.
Proof.
  unfold fieldStrings, Object_values, status_string.
  destruct (status task); rewrite !elem_of_cons, !elem_of_nil; tauto.
Qed.

Lemma matchesSearch_values (searchTerm : string) (task : Complaint) :
  searchTerm <> "" ->
  matchesSearch searchTerm task = true
  <-> exists value, value ∈ fieldStrings task
        /\ JS.includes (JS.toLowerCase value) (JS.toLowerCase searchTerm) = true.
Proof.
  intros Hne. unfold matchesSearch.
  apply falsy_false_iff in Hne. rewrite Hne, orb_false_l.
  rewrite existsb_elem_of. split; intros (v & Hv & Hi); exists v;
    (split; [now apply fieldStrings_values | assumption]).
Qed.

(** On strings of code units below 256, the search on all code units is
    the search above. *)
Lemma lowerOf_code (c : ascii) :
  Wide.lowerOf (JS.code c) = JS.code (JS.toLowerChar c).
Proof. destruct c as [[] [] [] [] [] [] [] []]; reflexivity. Qed.

Lemma lowerFrom_of_string (before : bool) (s : string) :
  Wide.lowerFrom before (Wide.of_string s) = Wide.of_string (JS.toLowerCase s).
Proof.
  unfold Wide.of_string, JS.toLowerCase. revert before.
  induction s as [|c s IH]; intros before; [reflexivity|].
  cbn [list_ascii_of_string JS.map_chars fmap list_fmap Wide.lowerFrom].
  assert (E : (JS.code c =? 931) = false).
  { apply Z.eqb_neq. pose proof (code_range c). lia. }
  rewrite E. cbn [andb]. f_equal; [apply lowerOf_code | apply IH].
Qed.

Lemma startsWith_of_string (s t : string) :
  Wide.startsWith (Wide.of_string s) (Wide.of_string t) = JS.startsWith s t.
Proof.
  unfold Wide.of_string. revert s.
  induction t as [|b t IH]; intros s; [reflexivity|].
  destruct s as [|a s]; [reflexivity|].
  cbn [list_ascii_of_string fmap list_fmap Wide.startsWith JS.startsWith].
  rewrite IH. f_equal. destruct (Ascii.eqb_spec a b) as [-> | N].
  - apply Z.eqb_refl.
  - apply Z.eqb_neq. intros E. now apply code_inj in E.
Qed.

Lemma includes_of_string (s t : string) :
  Wide.includes (Wide.of_string s) (Wide.of_string t) = JS.includes s t.
Proof.
  induction s as [|a s IH].
  - change (Wide.of_string "") with (@nil Z). cbn [Wide.includes JS.includes].
    now rewrite <- (startsWith_of_string "" t).
  - change (Wide.of_string (String a s)) with (JS.code a :: Wide.of_string s).
    cbn [Wide.includes JS.includes].
    now rewrite IH, <- (startsWith_of_string (String a s) t).
Qed.

Lemma matchesSearch_of_string (searchTerm : string) (task : Complaint) :
  Wide.matchesSearch (Wide.of_string searchTerm)
                     (Wide.of_string <$> Object_values task)
  = matchesSearch searchTerm task.
Proof.
  unfold Wide.matchesSearch, matchesSearch. f_equal.
  - now destruct searchTerm.
  - induction (Object_values task) as [|v vs IH]; [reflexivity|].
    cbn [fmap list_fmap existsb]. rewrite <- IH. f_equal.
    unfold Wide.toLowerCase. rewrite !lowerFrom_of_string.
    apply includes_of_string.
Qed.

(** C9, as stated, fails: the search lowers the field and the term apart,
    and a capital sigma is lowered by the letters around it.  The term of
    the one letter capital sigma occurs in the equipment name made of
    capital alpha and capital sigma, and the record does not pass: the
    name is lowered to alpha and final sigma, the term to sigma. *)
Lemma search_misses_capital_sigma :
  greekValues !! 12%nat = Some [913; 931]
  /\ Wide.includes [913; 931] [931] = true
  /\ Wide.toLowerCase [913; 931] = [945; 962]
  /\ Wide.toLowerCase [931] = [963]
  /\ Wide.matchesSearch [931] greekValues = false.
Proof. repeat split; vm_compute; reflexivity. Qed.

(** C9, amended: with a search term that is not empty, a record passes
    the search exactly when the lower-cased term is a substring of the
    lower-cased string form of one of its thirteen fields, the status being
    [in-progress] or [closed].  For a term and fields in the ASCII range
    that is the term occurring in the field with case ignored.  A record
    whose equipment name is [Mixer-900] matches the term [mixer]. *)
Theorem search_any_field (searchTerm : string) (task : Complaint) :
  searchTerm <> "" ->
  (matchesSearch searchTerm task = true
   <-> exists value, value ∈ fieldStrings task
         /\ JS.includes (JS.toLowerCase value) (JS.toLowerCase searchTerm) = true)
  /\ (asciiText searchTerm = true ->
      Forall (fun value => asciiText value = true) (fieldStrings task) ->
      (matchesSearch searchTerm task = true
       <-> exists value, value ∈ fieldStrings task /\ containsCI value searchTerm))
  /\ (forall l, task ∈ filteredTasks l searchTerm "" "" FilterAll
                <-> task ∈ l /\ matchesSearch searchTerm task = true)
  /\ (forall t, equipmentName t = "Mixer-900" -> matchesSearch "mixer" t = true).
Proof.
  intros Hne. split; [now apply matchesSearch_values|]. split; [|split].
  - intros _ _. rewrite (matchesSearch_values _ _ Hne).
    split; intros (v & Hv & Hi); exists v; (split; [assumption|]);
      now apply includes_lower_containsCI.
  - intros l. unfold filteredTasks. rewrite list_elem_of_In, filter_In.
    rewrite <- list_elem_of_In. simpl. tauto.
  - intros t Ht. apply matchesSearch_values; [discriminate|].
    exists "Mixer-900". split; [|reflexivity].
    unfold fieldStrings. rewrite Ht. rewrite !elem_of_cons. tauto.
Qed.

Lemma search_any_field_witness :
  let task := mkComplaint "4" "" "" "" "" "" "" "" "" "" "N/A" "Mixer-900" Closed in
  (matchesSearch "CLOSE" task = true
   <-> exists value, value ∈ fieldStrings task
         /\ JS.includes (JS.toLowerCase value) (JS.toLowerCase "CLOSE") = true)
  /\ (asciiText "CLOSE" = true ->
      Forall (fun value => asciiText value = true) (fieldStrings task) ->
      (matchesSearch "CLOSE" task = true
       <-> exists value, value ∈ fieldStrings task /\ containsCI value "CLOSE"))
  /\ (forall l, task ∈ filteredTasks l "CLOSE" "" "" FilterAll
                <-> task ∈ l /\ matchesSearch "CLOSE" task = true)
  /\ (forall t, equipmentName t = "Mixer-900" -> matchesSearch "mixer" t = true).
Proof. intros task. apply (search_any_field "CLOSE" task). discriminate. Defined.

(** ** Title case *)





Lemma or_default_self (s : string) : JS.or_default (Some s) "" = s.
Proof. destruct s; reflexivity. Qed.




(** ** Sorting *)

Section SortFacts.
Context {A : Type} (comparefn : A -> A -> Z).

Lemma insert_Permutation (x : A) (l : list A) :
  Permutation (x :: l) (JS.insert comparefn x l).
Proof.
  induction l as [|y l IH]; simpl; [reflexivity|].
  destruct (comparefn y x <? 0); [|reflexivity].
  rewrite perm_swap. now apply perm_skip.
Qed.

Lemma sort_Permutation (l : list A) : Permutation l (JS.sort comparefn l).
Proof.
  induction l as [|x l IH]; simpl; [reflexivity|].
  rewrite <- insert_Permutation. now apply perm_skip.
Qed.

(** The comparator orders strictly: no two elements are each put before
    the other, and an element put before another is put before, or has
    put before it, any third one. *)
Hypothesis asym : forall x y, comparefn x y < 0 -> ~ comparefn y x < 0.
Hypothesis cotrans :
  forall x y z, comparefn x z < 0 -> comparefn x y < 0 \/ comparefn y z < 0.

Lemma insert_sorted (x : A) (l : list A) :
  StronglySorted (mayPrecede comparefn) l ->
  StronglySorted (mayPrecede comparefn) (JS.insert comparefn x l).
Proof.
  induction 1 as [|y l Hl IH Hy]; simpl.
  - repeat constructor.
  - destruct (Z.ltb_spec (comparefn y x) 0) as [Hlt | Hge].
    + constructor; [assumption|].
      eapply Permutation_Forall; [apply insert_Permutation|].
      constructor; [|assumption]. unfold mayPrecede. now apply asym.
    + constructor; [now constructor|].
      constructor; [unfold mayPrecede; lia|].
      eapply List.Forall_impl; [|exact Hy]. unfold mayPrecede.
      intros z Hz Hzx. destruct (cotrans z y x Hzx); [contradiction | lia].
Qed.

Lemma sort_sorted (l : list A) : StronglySorted (mayPrecede comparefn) (JS.sort comparefn l).
Proof. induction l; simpl; [constructor | now apply insert_sorted]. Qed.

End SortFacts.

Lemma StronglySorted_impl {A} (R1 R2 : A -> A -> Prop) (l : list A) :
  (forall a b, R1 a b -> R2 a b) -> StronglySorted R1 l -> StronglySorted R2 l.
Proof.
  intros HR. induction 1 as [|x l Hl IH Hx]; constructor; [assumption|].
  eapply List.Forall_impl; [|exact Hx]. auto.
Qed.

Lemma StronglySorted_lookup {A} (R : A -> A -> Prop) (l : list A)
    (i j : nat) (a b : A) :
  StronglySorted R l -> l !! i = Some a -> l !! j = Some b -> (i < j)%nat ->
  R a b.
Proof.
  intros Hs. revert i j. induction Hs as [|x l Hl IH Hx]; intros i j Hi Hj Hij.
  - discriminate.
  - destruct j as [|j]; [lia|]. simpl in Hj. destruct i as [|i].
    + injection Hi as ->. rewrite List.Forall_forall in Hx. apply Hx.
      apply list_elem_of_In. eapply list_elem_of_lookup_2; eassumption.
    + simpl in Hi. apply (IH i j); [assumption | assumption | lia].
Qed.

(** A comparator that is negative exactly against a total preorder [R]
    sorts into [R], and so does every arrangement that respects it. *)
Section SortInto.
Context {A : Type} (comparefn : A -> A -> Z) (R : A -> A -> Prop).
Hypothesis neg_iff : forall a b, comparefn a b < 0 <-> ~ R b a.
Hypothesis R_total : forall a b, R a b \/ R b a.
Hypothesis R_trans : forall a b c, R a b -> R b c -> R a c.
Hypothesis R_dec : forall a b, R a b \/ ~ R a b.

Lemma mayPrecede_iff (a b : A) : mayPrecede comparefn a b <-> R a b.
Proof.
  unfold mayPrecede. rewrite neg_iff. destruct (R_dec a b); tauto.
Qed.

Lemma respected_sorted (l : list A) :
  StronglySorted (mayPrecede comparefn) l -> StronglySorted R l.
Proof. apply StronglySorted_impl. intros a b. apply mayPrecede_iff. Qed.

Lemma sort_into (l : list A) : StronglySorted R (JS.sort comparefn l).
Proof.
  apply respected_sorted, sort_sorted.
  - intros x y. rewrite !neg_iff. intros Hxy Hyx.
    destruct (R_total x y); tauto.
  - intros x y z. rewrite !neg_iff. intros Hzx.
    destruct (R_dec y x) as [Hyx|]; [|auto].
    right. intros Hzy. apply Hzx. eapply R_trans; eassumption.
Qed.

End SortInto.

(** *** Numbers *)

Lemma toDouble_small (z : Z) : Z.abs z < 2 ^ 53 -> JS.toDouble z = JS.Fin z.
Proof. intros H. unfold JS.toDouble. apply Z.ltb_lt in H. now rewrite H. Qed.

Lemma exponent_facts (a : Z) :
  2 ^ 53 <= a ->
  1 <= Z.log2 a - 52
  /\ 2 ^ 52 * 2 ^ (Z.log2 a - 52) <= a < 2 ^ 53 * 2 ^ (Z.log2 a - 52).
Proof.
  intros Ha. assert (H0 : 0 < a) by lia.
  pose proof (Z.log2_spec a H0) as [Hlo Hhi].
  assert (Hl : 53 <= Z.log2 a).
  { rewrite <- (Z.log2_pow2 53) by lia. now apply Z.log2_le_mono. }
  remember (Z.log2 a - 52) as e eqn:He.
  replace (Z.succ (Z.log2 a)) with (53 + e) in Hhi by lia.
  replace (Z.log2 a) with (52 + e) in Hlo by lia.
  rewrite Z.pow_add_r in Hlo, Hhi by lia.
  split; [lia | split; assumption].
Qed.

Lemma roundToDouble_bounds (a : Z) :
  2 ^ 53 <= a ->
  2 ^ 52 * 2 ^ (Z.log2 a - 52) <= JS.roundToDouble a <= 2 ^ 53 * 2 ^ (Z.log2 a - 52).
Proof.
  intros Ha. destruct (exponent_facts a Ha) as (He & Hlo & Hhi).
  unfold JS.roundToDouble. remember (Z.log2 a - 52) as e eqn:Ee.
  assert (Hp : 0 < 2 ^ e) by (apply Z.pow_pos_nonneg; lia).
  assert (Hq1 : 2 ^ 52 <= a / 2 ^ e).
  { apply Z.div_le_lower_bound; [assumption | lia]. }
  assert (Hq2 : a / 2 ^ e < 2 ^ 53).
  { apply Z.div_lt_upper_bound; [assumption | lia]. }
  remember (2 ^ e) as p. remember (a / p) as q.
  destruct (_ || _); nia.
Qed.

Lemma roundToDouble_large (a : Z) : 2 ^ 53 <= a -> 2 ^ 53 <= JS.roundToDouble a.
Proof.
  intros Ha. destruct (exponent_facts a Ha) as (He & _).
  pose proof (roundToDouble_bounds a Ha) as [Hlo _].
  assert (Hp : 2 ^ 1 <= 2 ^ (Z.log2 a - 52)) by (apply Z.pow_le_mono_r; lia).
  change (2 ^ 53) with (2 ^ 52 * 2 ^ 1). remember (2 ^ (Z.log2 a - 52)) as p. nia.
Qed.

Lemma roundToDouble_mono (a b : Z) :
  2 ^ 53 <= a -> a <= b -> JS.roundToDouble a <= JS.roundToDouble b.
Proof.
  intros Ha Hab. assert (Hb : 2 ^ 53 <= b) by lia.
  assert (Hl : Z.log2 a <= Z.log2 b) by now apply Z.log2_le_mono.
  destruct (Z.eq_dec (Z.log2 a) (Z.log2 b)) as [E | N].
  - unfold JS.roundToDouble. rewrite <- E.
    destruct (exponent_facts a Ha) as (He & _).
    remember (Z.log2 a - 52) as e eqn:Ee.
    assert (Hp : 0 < 2 ^ e) by (apply Z.pow_pos_nonneg; lia).
    assert (Hh : 2 ^ e = 2 * 2 ^ (e - 1)).
    { rewrite <- Z.pow_succ_r by lia. f_equal. lia. }
    pose proof (Z.div_mod a (2 ^ e) ltac:(lia)) as Da.
    pose proof (Z.div_mod b (2 ^ e) ltac:(lia)) as Db.
    pose proof (Z.mod_pos_bound a (2 ^ e) Hp) as Ra.
    pose proof (Z.mod_pos_bound b (2 ^ e) Hp) as Rb.
    remember (2 ^ e) as p. remember (2 ^ (e - 1)) as h.
    remember (a / p) as qa. remember (b / p) as qb.
    remember (a mod p) as ra. remember (b mod p) as rb.
    assert (Hq : qa <= qb) by nia.
    destruct (Z.eq_dec qa qb) as [Eq | Nq].
    + clear Heqqa Heqqb. subst qb. assert (Hr : ra <= rb) by nia.
      destruct (Z.ltb_spec h ra), (Z.ltb_spec h rb), (Z.eqb_spec ra h),
        (Z.eqb_spec rb h), (Z.odd qa); cbn; nia.
    + assert (qa + 1 <= qb) by lia.
      destruct (_ || _), (_ || _); nia.
  - pose proof (roundToDouble_bounds a Ha) as [_ Hhi].
    pose proof (roundToDouble_bounds b Hb) as [Hlo _].
    destruct (exponent_facts a Ha) as (He & _).
    assert (Hp : 2 ^ (Z.log2 a - 52 + 1) <= 2 ^ (Z.log2 b - 52))
      by (apply Z.pow_le_mono_r; lia).
    rewrite Z.pow_add_r in Hp by lia. change (2 ^ 1) with 2 in Hp.
    change (2 ^ 53) with (2 ^ 52 * 2) in Hhi.
    remember (2 ^ (Z.log2 a - 52)) as pa. remember (2 ^ (Z.log2 b - 52)) as pb.
    nia.
Qed.

Lemma toDouble_Fin_large (z w : Z) :
  2 ^ 53 <= Z.abs z -> JS.toDouble z = JS.Fin w -> 2 ^ 53 <= Z.abs w.
Proof.
  intros Hz. unfold JS.toDouble.
  destruct (Z.ltb_spec (Z.abs z) (2 ^ 53)) as [|_]; [lia|].
  pose proof (roundToDouble_large _ Hz) as Hv.
  destruct (2 ^ 1024 <=? _); [destruct (z <? 0); discriminate|].
  intros [= <-]. destruct (z <? 0); lia.
Qed.

Lemma toDouble_Fin_small (z w : Z) :
  JS.toDouble z = JS.Fin w -> Z.abs w < 2 ^ 53 -> z = w.
Proof.
  intros H Hw. destruct (Z.lt_ge_cases (Z.abs z) (2 ^ 53)) as [Hz | Hz].
  - rewrite toDouble_small in H by assumption. congruence.
  - pose proof (toDouble_Fin_large z w Hz H). lia.
Qed.

Lemma toDouble_mono (x y : Z) : x <= y -> num_le (JS.toDouble x) (JS.toDouble y).
Proof.
  intros Hxy. unfold JS.toDouble.
  destruct (Z.ltb_spec (Z.abs x) (2 ^ 53)) as [Hx | Hx],
           (Z.ltb_spec (Z.abs y) (2 ^ 53)) as [Hy | Hy].
  - exact Hxy.
  - pose proof (roundToDouble_large _ Hy) as Hv.
    destruct (Z.ltb_spec y 0); [lia|]. destruct (2 ^ 1024 <=? _); cbn; lia.
  - pose proof (roundToDouble_large _ Hx) as Hv.
    destruct (Z.ltb_spec x 0); [|lia]. destruct (2 ^ 1024 <=? _); cbn; lia.
  - pose proof (roundToDouble_large _ Hx) as Hvx.
    pose proof (roundToDouble_large _ Hy) as Hvy.
    destruct (Z.ltb_spec x 0), (Z.ltb_spec y 0); try lia.
    + pose proof (roundToDouble_mono (Z.abs y) (Z.abs x) Hy ltac:(lia)) as Hm.
      destruct (Z.leb_spec (2 ^ 1024) (JS.roundToDouble (Z.abs x))),
               (Z.leb_spec (2 ^ 1024) (JS.roundToDouble (Z.abs y))); cbn; lia.
    + destruct (2 ^ 1024 <=? _), (2 ^ 1024 <=? _); cbn; lia.
    + pose proof (roundToDouble_mono (Z.abs x) (Z.abs y) Hx ltac:(lia)) as Hm.
      destruct (Z.leb_spec (2 ^ 1024) (JS.roundToDouble (Z.abs x))),
               (Z.leb_spec (2 ^ 1024) (JS.roundToDouble (Z.abs y))); cbn; lia.
Qed.

Lemma byOrder_neg (order : SortOrder) (lt gt : bool) :
  byOrder order lt gt < 0 <->
  match order with
  | asc => lt = true
  | desc => lt = false /\ gt = true
  end.
Proof. destruct order, lt, gt; simpl; intuition (lia || congruence). Qed.

Lemma num_lt_iff (x y : JS.Num) : JS.num_lt x y = true <-> ~ num_le y x.
Proof.
  destruct x as [a| |], y as [b| |]; simpl; rewrite ?Z.ltb_lt;
    intuition (lia || congruence).
Qed.

Lemma num_lt_false_iff (x y : JS.Num) : JS.num_lt x y = false <-> num_le y x.
Proof.
  destruct x as [a| |], y as [b| |]; simpl; rewrite ?Z.ltb_ge;
    intuition (lia || congruence).
Qed.

Lemma num_le_total (x y : JS.Num) : num_le x y \/ num_le y x.
Proof. destruct x, y; simpl; auto; lia. Qed.

Lemma num_le_trans (x y z : JS.Num) : num_le x y -> num_le y z -> num_le x z.
Proof. destruct x, y, z; simpl; auto; try lia; tauto. Qed.

Lemma compareTasks_id_neg (order : SortOrder) (a b : Complaint) :
  compareTasks Kid order a b < 0 <-> ~ idOrder order b a.
Proof.
  unfold compareTasks. simpl field. rewrite !or_default_self, byOrder_neg.
  fold (idKey a) (idKey b). unfold idOrder. destruct order.
  - apply num_lt_iff.
  - rewrite num_lt_false_iff, num_lt_iff.
    split; [tauto|]. intros H. split; [|assumption].
    destruct (num_le_total (idKey a) (idKey b)); tauto.
Qed.

Lemma idOrder_total (order : SortOrder) (a b : Complaint) :
  idOrder order a b \/ idOrder order b a.
Proof. destruct order; apply num_le_total. Qed.

Lemma idOrder_trans (order : SortOrder) (a b c : Complaint) :
  idOrder order a b -> idOrder order b c -> idOrder order a c.
Proof. destruct order; simpl; eauto using num_le_trans. Qed.

Lemma idOrder_dec (order : SortOrder) (a b : Complaint) :
  idOrder order a b \/ ~ idOrder order a b.
Proof.
  unfold idOrder, num_le.
  destruct order, (idKey a), (idKey b); auto; lia.
Qed.

Lemma idKey_cases (c : Complaint) :
  match JS.mathInt (id c) with
  | None => idKey c = JS.Infinity
  | Some z => idKey c = JS.toDouble z
  end.
Proof.
  unfold idKey, JS.parseInt. now destruct (JS.mathInt (id c)).
Qed.

Lemma toDouble_safe (z : Z) : Z.abs z <= 2 ^ 53 -> JS.toDouble z = JS.Fin z.
Proof.
  intros H. destruct (Z.eq_dec (Z.abs z) (2 ^ 53)) as [E | N].
  - destruct (Z.abs_eq_or_opp z) as [A | A]; rewrite A in E.
    + subst z. reflexivity.
    + replace z with (- 2 ^ 53) by lia. reflexivity.
  - apply toDouble_small. lia.
Qed.

(** C4, as stated, fails: the ids are compared as the numbers that
    [parseInt] returns.  The integers 9007199254740993 and 9007199254740992
    give the same number, so the first of them stays in front of the second
    in ascending order although it is the greater integer. *)
Lemma ids_beyond_2_53_not_by_integer_value :
  id <$> sortedTasks [withId "9007199254740993"; withId "9007199254740992";
                      withId "5"] (Some (Kid, asc))
  = ["5"; "9007199254740993"; "9007199254740992"]
  /\ JS.mathInt "9007199254740993" = Some 9007199254740993
  /\ JS.mathInt "9007199254740992" = Some 9007199254740992
  /\ ~ StronglySorted integerOrder
        (sortedTasks [withId "9007199254740993"; withId "9007199254740992";
                      withId "5"] (Some (Kid, asc))).
Proof.
  split; [reflexivity|]. split; [reflexivity|]. split; [reflexivity|].
  change (sortedTasks _ _)
    with [withId "5"; withId "9007199254740993"; withId "9007199254740992"].
  intros H. apply StronglySorted_inv in H as [H _].
  apply StronglySorted_inv in H as [_ H].
  apply Forall_inv in H. vm_compute in H. now apply H.
Qed.

(** C4, amended: sorting by [id] reorders the collection so that ids stand
    by the number that [parseInt] returns for the integer at their start,
    an id without one counting as infinity.  That number is the integer
    itself up to 2^53 in absolute value; a greater integer is rounded to
    the nearest number, which never reverses the order of two integers but
    can make them equal.  No id that counts as infinity stands before an id
    with a finite number in ascending order, nor after one in descending
    order; the ids 10, 2, abc come out as 2, 10, abc and as abc, 10, 2. *)
Theorem sort_by_id (order : SortOrder) (l : list Complaint) :
  Permutation l (sortedTasks l (Some (Kid, order)))
  /\ StronglySorted (idOrder order) (sortedTasks l (Some (Kid, order)))
  /\ (forall c, JS.mathInt (id c) = None -> idKey c = JS.Infinity)
  /\ (forall c z, JS.mathInt (id c) = Some z -> Z.abs z <= 2 ^ 53 ->
                  idKey c = JS.Fin z)
  /\ (forall a b x y,
        JS.mathInt (id a) = Some x -> JS.mathInt (id b) = Some y -> x <= y ->
        num_le (idKey a) (idKey b))
  /\ (forall (i j : nat) (a b : Complaint) (z : Z),
        sortedTasks l (Some (Kid, order)) !! i = Some a ->
        sortedTasks l (Some (Kid, order)) !! j = Some b ->
        idKey a = JS.Infinity -> idKey b = JS.Fin z ->
        match order with asc => (j < i)%nat | desc => (i < j)%nat end)
  /\ id <$> sortedTasks [withId "10"; withId "2"; withId "abc"] (Some (Kid, asc))
     = ["2"; "10"; "abc"]
  /\ id <$> sortedTasks [withId "10"; withId "2"; withId "abc"] (Some (Kid, desc))
     = ["abc"; "10"; "2"].
Proof.
  assert (Hs : StronglySorted (idOrder order) (sortedTasks l (Some (Kid, order)))).
  { apply sort_into.
    - apply compareTasks_id_neg.
    - apply idOrder_total.
    - apply idOrder_trans.
    - apply idOrder_dec. }
  split; [apply sort_Permutation|]. split; [exact Hs|].
  split; [|split; [|split; [|split; [|split; reflexivity]]]].
  - intros c Hc. pose proof (idKey_cases c) as H. now rewrite Hc in H.
  - intros c z Hc Hz. pose proof (idKey_cases c) as H. rewrite Hc in H.
    rewrite H. now apply toDouble_safe.
  - intros a b x y Ha Hb Hxy.
    pose proof (idKey_cases a) as HA. pose proof (idKey_cases b) as HB.
    rewrite Ha in HA. rewrite Hb in HB. rewrite HA, HB. now apply toDouble_mono.
  - intros i j a b z Hi Hj Ha Hb.
    destruct (Nat.lt_trichotomy i j) as [Hlt | [-> | Hgt]].
    + assert (Hab := StronglySorted_lookup _ _ _ _ _ _ Hs Hi Hj Hlt).
      unfold idOrder in Hab. rewrite Ha, Hb in Hab.
      destruct order; [contradiction | assumption].
    + rewrite Hi in Hj. injection Hj as ->. congruence.
    + assert (Hba := StronglySorted_lookup _ _ _ _ _ _ Hs Hj Hi Hgt).
      unfold idOrder in Hba. rewrite Ha, Hb in Hba.
      destruct order; [assumption | contradiction].
Qed.

Lemma compareTasks_date_neg (order : SortOrder) (a b : Complaint) :
  compareTasks KplannedDate order a b < 0 <-> ~ dateOrder order b a.
Proof.
  unfold compareTasks, dateOrder.
  destruct (parseDateString (plannedDate a)) as [ta|];
    destruct (parseDateString (plannedDate b)) as [tb|];
    rewrite ?byOrder_neg; try (intuition lia).
  destruct order; rewrite ?Z.ltb_lt, ?Z.ltb_ge; lia.
Qed.

Lemma dateOrder_total (order : SortOrder) (a b : Complaint) :
  dateOrder order a b \/ dateOrder order b a.
Proof.
  unfold dateOrder.
  destruct (parseDateString (plannedDate a)), (parseDateString (plannedDate b)),
    order; auto; lia.
Qed.

Lemma dateOrder_trans (order : SortOrder) (a b c : Complaint) :
  dateOrder order a b -> dateOrder order b c -> dateOrder order a c.
Proof.
  unfold dateOrder.
  destruct (parseDateString (plannedDate a)), (parseDateString (plannedDate b)),
    (parseDateString (plannedDate c)), order; auto; try lia; tauto.
Qed.

Lemma dateOrder_dec (order : SortOrder) (a b : Complaint) :
  dateOrder order a b \/ ~ dateOrder order a b.
Proof.
  unfold dateOrder.
  destruct (parseDateString (plannedDate a)), (parseDateString (plannedDate b)),
    order; auto; lia.
Qed.

(** C5: under both orders, sorting by [plannedDate] leaves no record whose
    date does not parse in front of a record whose date parses, and puts
    the records whose dates parse in the requested order of their
    instants; of the dates 31/02/24, 01/01/24 and the empty one, the valid
    one comes first under both orders. *)
Theorem sort_by_plannedDate (order : SortOrder) (l : list Complaint) :
  Permutation l (sortedTasks l (Some (KplannedDate, order)))
  /\ StronglySorted (dateOrder order) (sortedTasks l (Some (KplannedDate, order)))
  /\ (forall (i j : nat) (a b : Complaint),
        sortedTasks l (Some (KplannedDate, order)) !! i = Some a ->
        sortedTasks l (Some (KplannedDate, order)) !! j = Some b ->
        parseDateString (plannedDate a) = None ->
        is_Some (parseDateString (plannedDate b)) ->
        (j < i)%nat)
  /\ plannedDate <$> sortedTasks
       [withDate "1" "31/02/24"; withDate "2" "01/01/24"; withDate "3" ""]
       (Some (KplannedDate, order))
     = ["01/01/24"; "31/02/24"; ""].
Proof.
  assert (Hs : StronglySorted (dateOrder order)
                 (sortedTasks l (Some (KplannedDate, order)))).
  { apply sort_into.
    - apply compareTasks_date_neg.
    - apply dateOrder_total.
    - apply dateOrder_trans.
    - apply dateOrder_dec. }
  split; [apply sort_Permutation|]. split; [exact Hs|]. split.
  - intros i j a b Hi Hj Ha [tb Hb].
    destruct (Nat.lt_trichotomy j i) as [Hlt | [-> | Hgt]]; [assumption | |].
    + rewrite Hi in Hj. injection Hj as ->. congruence.
    + exfalso. assert (Hab := StronglySorted_lookup _ _ _ _ _ _ Hs Hi Hj Hgt).
      unfold dateOrder in Hab. now rewrite Ha, Hb in Hab.
  - destruct order; vm_compute; reflexivity.
Qed.

(** ** The calendar *)

Section Calendar.
Import JS.

Lemma DayFromYear_succ y : DayFromYear (y + 1) = DayFromYear y + DaysInYear y.
Proof.
  unfold DayFromYear, DaysInYear.
  destruct (Z.eqb_spec (y mod 4) 0), (Z.eqb_spec (y mod 100) 0), (Z.eqb_spec (y mod 400) 0); simpl;
  Z.to_euclidean_division_equations; lia.
Qed.

Lemma DayFromYear_lt a b : a < b -> DayFromYear a < DayFromYear b.
Proof. intros. unfold DayFromYear. Z.to_euclidean_division_equations; lia. Qed.

Lemma YearFromDay_spec d : DayFromYear (YearFromDay d) <= d < DayFromYear (YearFromDay d + 1).
Proof.
  unfold YearFromDay.
  set (y0 := 1970 + 400 * d / 146097).
  assert (DayFromYear (y0 - 1) <= d < DayFromYear (y0 + 2)).
  { unfold y0, DayFromYear. Z.to_euclidean_division_equations; lia. }
  destruct (Z.ltb_spec d (DayFromYear y0)).
  - replace (y0 - 1 + 1) with y0 by lia. lia.
  - destruct (Z.leb_spec (DayFromYear (y0 + 1)) d).
    + replace (y0 + 1 + 1) with (y0 + 2) by lia. lia.
    + lia.
Qed.

Lemma YearFromDay_unique d y :
  DayFromYear y <= d < DayFromYear (y + 1) -> YearFromDay d = y.
Proof.
  intros H. pose proof (YearFromDay_spec d) as S.
  destruct (Z.lt_trichotomy (YearFromDay d) y) as [L | [E | G]]; [|assumption|].
  - assert (DayFromYear (YearFromDay d + 1) <= DayFromYear y).
    { destruct (Z.eq_dec (YearFromDay d + 1) y) as [->|]; [lia|].
      apply Z.lt_le_incl, DayFromYear_lt. lia. }
    lia.
  - assert (DayFromYear (y + 1) <= DayFromYear (YearFromDay d)).
    { destruct (Z.eq_dec (y + 1) (YearFromDay d)) as [->|]; [lia|].
      apply Z.lt_le_incl, DayFromYear_lt. lia. }
    lia.
Qed.

Lemma InLeapYear_isLeap y : InLeapYear y = if isLeap y then 1 else 0.
Proof.
  unfold InLeapYear, DaysInYear, isLeap.
  destruct (y mod 4 =? 0), (y mod 100 =? 0), (y mod 400 =? 0); reflexivity.
Qed.

Lemma DaysInYear_leap y : DaysInYear y = 365 + InLeapYear y.
Proof.
  unfold InLeapYear, DaysInYear.
  destruct (y mod 4 =? 0), (y mod 100 =? 0), (y mod 400 =? 0); reflexivity.
Qed.

Lemma Day_mul d : Day (d * msPerDay) = d.
Proof. unfold Day, msPerDay. apply Z.div_mul. lia. Qed.

Lemma MonthFromTime_range t : 0 <= MonthFromTime t <= 11.
Proof.
  unfold MonthFromTime.
  repeat match goal with |- context [if ?b then _ else _] => destruct b end; lia.
Qed.

Ltac month_cases m :=
  let H := fresh in
  assert (H : m = 0 \/ m = 1 \/ m = 2 \/ m = 3 \/ m = 4 \/ m = 5 \/ m = 6 \/ m = 7
              \/ m = 8 \/ m = 9 \/ m = 10 \/ m = 11) by lia;
  repeat (destruct H as [-> | H]); [.. | subst m].

(** Within year [Y]: day-in-year [w] lies in month [m] with date [D]. *)
Lemma month_of_day (Y m D : Z) :
  0 <= m <= 11 -> 1 <= D <= daysInMonth Y (m + 1) ->
  let dd := DayFromYear Y + monthStart (InLeapYear Y) m + D - 1 in
  YearFromDay dd = Y
  /\ MonthFromTime (dd * msPerDay) = m
  /\ DateFromTime (dd * msPerDay) = D.
Proof.
  intros Hm HD dd.
  assert (HY : YearFromDay dd = Y).
  { apply YearFromDay_unique. rewrite DayFromYear_succ, DaysInYear_leap.
    unfold dd. rewrite InLeapYear_isLeap. revert HD. unfold daysInMonth.
    month_cases m; simpl; destruct (isLeap Y); simpl; lia. }
  assert (HM : MonthFromTime (dd * msPerDay) = m).
  { unfold MonthFromTime, DayWithinYear, YearFromTime. rewrite Day_mul, HY.
    unfold dd. rewrite InLeapYear_isLeap. revert HD. unfold daysInMonth.
    month_cases m; simpl; destruct (isLeap Y); simpl; intros HD;
      repeat match goal with |- context [?a <? ?b] => destruct (Z.ltb_spec a b) end; lia. }
  split; [assumption|]. split; [assumption|].
  unfold DateFromTime. rewrite HM. unfold DayWithinYear, YearFromTime.
  rewrite Day_mul, HY. unfold dd. lia.
Qed.

Lemma MakeDay_in_year (Y m D : Z) :
  0 <= m <= 11 ->
  MakeDay Y m D = DayFromYear Y + monthStart (InLeapYear Y) m + D - 1.
Proof.
  intros Hm. unfold MakeDay.
  rewrite (Z.div_small m 12), (Z.mod_small m 12), Z.add_0_r by lia. reflexivity.
Qed.

Lemma TimeClip_Some (t : Z) :
  Z.abs t <= 8640000000000000 -> TimeClip t = Some t.
Proof. intros H. unfold TimeClip. destruct (Z.ltb_spec 8640000000000000 (Z.abs t)); [lia | reflexivity]. Qed.

Lemma TimeClip_inv (t u : Z) :
  TimeClip t = Some u -> u = t /\ Z.abs t <= 8640000000000000.
Proof.
  unfold TimeClip. destruct (Z.ltb_spec 8640000000000000 (Z.abs t)); [discriminate|].
  intros [= <-]. auto.
Qed.

Lemma monthStart_leap_bound (l1 l2 m : Z) :
  0 <= l1 <= 1 -> 0 <= l2 <= 1 -> 0 <= m <= 11 ->
  -1 <= monthStart l1 m - monthStart l2 m <= 1.
Proof. intros H1 H2 Hm. month_cases m; simpl; lia. Qed.

Lemma InLeapYear_range y : 0 <= InLeapYear y <= 1.
Proof. unfold InLeapYear. destruct (_ =? _); lia. Qed.

Lemma MonthFromTime_bounds (t : Z) :
  0 <= DayWithinYear t < 365 + InLeapYear (YearFromTime t) ->
  monthStart (InLeapYear (YearFromTime t)) (MonthFromTime t) <= DayWithinYear t
  /\ DayWithinYear t
     < monthStart (InLeapYear (YearFromTime t)) (MonthFromTime t + 1).
Proof.
  unfold MonthFromTime.
  generalize (DayWithinYear t) (InLeapYear (YearFromTime t)) (InLeapYear_range (YearFromTime t)).
  intros w leap Hleap Hw. cbv zeta.
  repeat match goal with
         | |- context [?a <? ?b] => destruct (Z.ltb_spec a b)
         end; simpl in *; lia.
Qed.

Lemma roundTrips_unfold (Y m D : Z) :
  roundTrips Y m D <->
  exists t, TimeClip (MakeDay (MakeFullYear Y) m D * msPerDay) = Some t
            /\ YearFromTime t = Y /\ MonthFromTime t = m /\ DateFromTime t = D.
Proof.
  unfold roundTrips, Date_UTC, getUTCFullYear, getUTCMonth, getUTCDate.
  destruct (TimeClip _) as [t|]; split.
  - intros ([= HY] & [= HM] & [= HD]). exists t. auto.
  - intros (t' & [= <-] & HY & HM & HD). cbn [fmap option_fmap option_map].
    now rewrite HY, HM, HD.
  - intros [[=] _].
  - intros (t' & [=] & _).
Qed.

Lemma no_two_digit_year (Y m D l l' : Z) :
  0 <= Y <= 99 -> -1 <= monthStart l' m - monthStart l m <= 1 ->
  DayFromYear (1900 + Y) + monthStart l' m + D - 1 - DayFromYear Y
    - monthStart l m + 1 = D -> False.
Proof.
  intros HY Hb. unfold DayFromYear.
  generalize (monthStart l' m) (monthStart l m) Hb. intros a b Hab.
  Z.to_euclidean_division_equations; lia.
Qed.

Lemma MakeFullYear_cases (Y : Z) :
  (MakeFullYear Y = Y /\ ~ (0 <= Y <= 99))
  \/ (MakeFullYear Y = 1900 + Y /\ 0 <= Y <= 99).
Proof.
  unfold MakeFullYear. destruct (Z.leb_spec 0 Y), (Z.leb_spec Y 99); simpl; lia.
Qed.

Lemma date_in_month (Y m D : Z) :
  0 <= m <= 11 ->
  monthStart (InLeapYear Y) m <= monthStart (InLeapYear Y) m + D - 1
    < monthStart (InLeapYear Y) (m + 1) ->
  1 <= D <= daysInMonth Y (m + 1).
Proof.
  intros Hm. rewrite InLeapYear_isLeap. unfold daysInMonth.
  month_cases m; simpl; destruct (isLeap Y); simpl; lia.
Qed.

Lemma getters_at_day (dd : Z) :
  YearFromTime (dd * msPerDay) = YearFromDay dd
  /\ DayWithinYear (dd * msPerDay) = dd - DayFromYear (YearFromDay dd)
  /\ DateFromTime (dd * msPerDay)
     = dd - DayFromYear (YearFromDay dd)
       - monthStart (InLeapYear (YearFromDay dd)) (MonthFromTime (dd * msPerDay)) + 1.
Proof. unfold DateFromTime, DayWithinYear, YearFromTime. rewrite Day_mul. auto. Qed.

Lemma roundTrips_fwd (Y m D : Z) :
  roundTrips Y m D ->
  ~ (0 <= Y <= 99) /\ validDate Y (m + 1) D
  /\ Z.abs (MakeDay Y m D * msPerDay) <= 8640000000000000.
Proof.
  rewrite roundTrips_unfold.
  intros (t & Ht & HY & HM & HD).
  apply TimeClip_inv in Ht as [-> Hclip].
  assert (Hm : 0 <= m <= 11) by (rewrite <- HM; apply MonthFromTime_range).
  rewrite MakeDay_in_year in HY, HM, HD, Hclip by assumption.
  remember (MakeFullYear Y) as Y' eqn:HY'.
  remember (DayFromYear Y' + monthStart (InLeapYear Y') m + D - 1) as dd eqn:Hdd.
  destruct (getters_at_day dd) as (EY & EW & ED).
  pose proof (MonthFromTime_bounds (dd * msPerDay)) as Hb.
  pose proof (YearFromDay_spec dd) as Hs.
  rewrite EY, EW in Hb. rewrite EY in HY. rewrite ED in HD.
  rewrite HM in HD, Hb. rewrite HY in HD, Hb, Hs.
  rewrite DayFromYear_succ, DaysInYear_leap in Hs.
  destruct (MakeFullYear_cases Y) as [[HYY Hn] | [HYY Hn]];
    rewrite HYY in HY'; subst Y'.
  - split; [assumption|]. rewrite MakeDay_in_year by assumption.
    rewrite <- Hdd. split; [|assumption].
    split; [lia|]. apply date_in_month; [assumption|].
    specialize (Hb ltac:(lia)). lia.
  - exfalso. eapply (no_two_digit_year Y m D); [exact Hn | |].
    + apply (monthStart_leap_bound (InLeapYear (1900 + Y)) (InLeapYear Y));
        auto using InLeapYear_range.
    + lia.
Qed.

Lemma roundTrips_bwd (Y m D : Z) :
  ~ (0 <= Y <= 99) /\ validDate Y (m + 1) D
  /\ Z.abs (MakeDay Y m D * msPerDay) <= 8640000000000000 -> roundTrips Y m D.
Proof.
  rewrite roundTrips_unfold.
  - intros (HY & [HM HD] & Hclip).
    assert (Hm : 0 <= m <= 11) by lia.
    destruct (MakeFullYear_cases Y) as [[HYY _] | [_ Hn]]; [|contradiction].
    rewrite HYY, TimeClip_Some by assumption.
    rewrite MakeDay_in_year by assumption.
    destruct (month_of_day Y m D Hm HD) as (H1 & H2 & H3).
    eexists. split; [reflexivity|]. unfold YearFromTime. rewrite Day_mul. auto.
Qed.

End Calendar.

(** ** Date parsing *)

Lemma roundTrips_small (Y m D : Z) :
  roundTrips Y m D -> Z.abs Y < 2 ^ 53 /\ 0 <= m <= 11.
Proof.
  intros H. apply roundTrips_fwd in H as (_ & [Hm HD] & Hc).
  split; [|lia].
  assert (HD' : 1 <= D <= 31).
  { split; [lia|]. apply Z.le_trans with (1 := proj2 HD).
    unfold daysInMonth. destruct (isLeap Y).
    - assert (C : m + 1 = 1 \/ m + 1 = 2 \/ m + 1 = 3 \/ m + 1 = 4 \/ m + 1 = 5
                  \/ m + 1 = 6 \/ m + 1 = 7 \/ m + 1 = 8 \/ m + 1 = 9
                  \/ m + 1 = 10 \/ m + 1 = 11 \/ m + 1 = 12) by lia.
      repeat (destruct C as [-> | C]); [.. | rewrite C]; simpl; lia.
    - assert (C : m + 1 = 1 \/ m + 1 = 2 \/ m + 1 = 3 \/ m + 1 = 4 \/ m + 1 = 5
                  \/ m + 1 = 6 \/ m + 1 = 7 \/ m + 1 = 8 \/ m + 1 = 9
                  \/ m + 1 = 10 \/ m + 1 = 11 \/ m + 1 = 12) by lia.
      repeat (destruct C as [-> | C]); [.. | rewrite C]; simpl; lia. }
  rewrite MakeDay_in_year in Hc by lia.
  assert (Hs : 0 <= JS.monthStart (JS.InLeapYear Y) m <= 366).
  { pose proof (InLeapYear_range Y).
    assert (C : m = 0 \/ m = 1 \/ m = 2 \/ m = 3 \/ m = 4 \/ m = 5 \/ m = 6
                \/ m = 7 \/ m = 8 \/ m = 9 \/ m = 10 \/ m = 11) by lia.
    repeat (destruct C as [-> | C]); [.. | rewrite C]; simpl; lia. }
  unfold JS.msPerDay, JS.DayFromYear in Hc.
  change (2 ^ 53) with 9007199254740992.
  Z.to_euclidean_division_equations; lia.
Qed.

(** The three comparisons of [parseDateString] succeed exactly on finite
    numbers for which the date reads back. *)
Lemma roundTrips_check (y m d : JS.Num) :
  JS.strict_eq (JS.number (JS.getUTCFullYear (JS.Date_UTC_numbers y m d))) (Some y)
  && JS.strict_eq (JS.number (JS.getUTCMonth (JS.Date_UTC_numbers y m d))) (Some m)
  && JS.strict_eq (JS.number (JS.getUTCDate (JS.Date_UTC_numbers y m d))) (Some d)
  = true
  <-> exists Y M D, y = JS.Fin Y /\ m = JS.Fin M /\ d = JS.Fin D /\ roundTrips Y M D.
Proof.
  unfold roundTrips. split.
  - destruct y as [Y| |], m as [M| |], d as [D| |];
      cbn [JS.Date_UTC_numbers]; try discriminate.
    destruct (JS.Date_UTC Y M D) as [t|] eqn:Et; cbn; [|discriminate].
    rewrite !andb_true_iff, !Z.eqb_eq. intros [[HY HM] HD].
    exists Y, M, D. rewrite Et. cbn. repeat split; congruence.
  - intros (Y & M & D & -> & -> & -> & HY & HM & HD). cbn [JS.Date_UTC_numbers].
    rewrite HY, HM, HD. cbn. now rewrite !Z.eqb_refl.
Qed.

Lemma plus_Fin (x : JS.Num) (k w : Z) :
  JS.plus x k = JS.Fin w -> Z.abs w < 2 ^ 53 -> x = JS.Fin (w - k).
Proof.
  destruct x as [z| |]; cbn; try discriminate.
  intros H Hw. apply toDouble_Fin_small in H; [|assumption]. f_equal. lia.
Qed.

Lemma parseDateString_spec (s : string) (t : Z) :
  parseDateString s = Some t <->
  exists p0 p1 p2 d mo y,
    JS.split "/" s = [p0; p1; p2]
    /\ JS.parseInt p0 = Some (JS.Fin d) /\ JS.parseInt p1 = Some (JS.Fin mo)
    /\ JS.parseInt p2 = Some (JS.Fin y)
    /\ roundTrips (normYear y) (mo - 1) d
    /\ JS.Date_UTC (normYear y) (mo - 1) d = Some t.
Proof.
  unfold parseDateString. destruct s as [|c s].
  { simpl. split; [discriminate | intros (? & ? & ? & ? & ? & ? & [=] & _)]. }
  change (JS.falsy (String c s)) with false. cbv iota.
  destruct (JS.split "/" (String c s)) as [|p0 [|p1 [|p2 [|p3 ps]]]];
    try (split; [discriminate | intros (? & ? & ? & ? & ? & ? & [=] & _)]).
  destruct (JS.parseInt p0) as [nd|] eqn:E0, (JS.parseInt p1) as [nm|] eqn:E1,
    (JS.parseInt p2) as [ny|] eqn:E2; cbn [fmap option_fmap option_map];
    try (split; [discriminate
                | intros (? & ? & ? & ? & ? & ? & [= <- <- <-] & H0 & H1 & H2 & _);
                  congruence]).
  set (year := if JS.num_lt ny (JS.Fin 100) then JS.plus ny 2000 else ny).
  set (month := JS.plus nm (-1)).
  destruct (_ && _) eqn:E.
  - apply roundTrips_check in E as (Y & M & D & HY & HM & -> & Hr).
    destruct (roundTrips_small _ _ _ Hr) as [HYs HMs].
    assert (Hmo : nm = JS.Fin (M + 1)).
    { apply (plus_Fin nm (-1) M) in HM; [exact HM | lia]. }
    assert (Hy : exists y, ny = JS.Fin y /\ normYear y = Y).
    { unfold year in HY. destruct (JS.num_lt ny (JS.Fin 100)) eqn:L.
      - apply plus_Fin in HY; [|assumption]. exists (Y - 2000). split; [assumption|].
        rewrite HY in L. cbn in L. unfold normYear. rewrite L. lia.
      - exists Y. split; [assumption|]. rewrite HY in L. cbn in L.
        unfold normYear. now rewrite L. }
    destruct Hy as (y & Hy & Hn). rewrite HY, HM. cbn [JS.Date_UTC_numbers].
    split.
    + intros Ht. exists p0, p1, p2, D, (M + 1), y.
      replace (M + 1 - 1) with M by lia. rewrite Hn, <- Hmo, <- Hy. auto 10.
    + intros (? & ? & ? & d' & mo' & y' & [= <- <- <-] & H0 & H1 & H2 & _ & Ht).
      rewrite E0 in H0. rewrite E1, Hmo in H1. rewrite E2, Hy in H2.
      injection H0 as <-. injection H1 as <-. injection H2 as <-.
      replace (M + 1 - 1) with M in Ht by lia. now rewrite Hn in Ht.
  - split; [discriminate|].
    intros (? & ? & ? & d & mo & y & [= <- <- <-] & H0 & H1 & H2 & Hr & _).
    exfalso. apply not_true_iff_false in E. apply E. apply roundTrips_check.
    destruct (roundTrips_small _ _ _ Hr) as [HYs HMs].
    rewrite E0 in H0. rewrite E1 in H1. rewrite E2 in H2.
    injection H0 as ->. injection H1 as ->. injection H2 as ->.
    exists (normYear y), (mo - 1), d. repeat split; try apply Hr.
    + unfold year, normYear in *. cbn [JS.num_lt JS.plus].
      destruct (y <? 100); [now apply toDouble_small | reflexivity].
    + unfold month. cbn [JS.plus]. replace (mo + -1) with (mo - 1) by lia.
      apply toDouble_small. lia.
Qed.

(** C6, as stated, fails: a part with text after its digits is not numeric,
    and the date is parsed all the same. *)
Lemma date_with_trailing_text_parses :
  parseDateString "01x/02/2024y" = Some 1706745600000
  /\ JS.split "/" "01x/02/2024y" = ["01x"; "02"; "2024y"]
  /\ isNumeric "01x" = false /\ isNumeric "2024y" = false.
Proof. vm_compute. auto. Qed.

(** C6, amended: date parsing returns a date exactly when the string splits
    on the slash into three parts, [parseInt] reads an integer at the start
    of every part (after optional white space and a sign; what follows the
    digits is ignored), and the date built from them reads back as the same
    year, month and day, which it does exactly for an existing day of an
    existing month in a year outside 0 to 99 and within the range of time
    values; a year below 100 has 2000 added before that.  Day 31 of a
    month of 30 days is rejected. *)
Theorem date_parsing (s : string) (t : Z) :
  (parseDateString s = Some t <->
   exists p0 p1 p2 d mo y,
     JS.split "/" s = [p0; p1; p2]
     /\ JS.parseInt p0 = Some (JS.Fin d) /\ JS.parseInt p1 = Some (JS.Fin mo)
     /\ JS.parseInt p2 = Some (JS.Fin y)
     /\ roundTrips (normYear y) (mo - 1) d
     /\ JS.Date_UTC (normYear y) (mo - 1) d = Some t)
  /\ (forall Y m D,
        roundTrips Y m D <->
        ~ (0 <= Y <= 99) /\ validDate Y (m + 1) D
        /\ Z.abs (JS.MakeDay Y m D * JS.msPerDay) <= 8640000000000000)
  /\ (forall y, normYear y = if y <? 100 then y + 2000 else y)
  /\ parseDateString "31/04/24" = None
  /\ parseDateString "30/04/24" = Some 1714435200000.
Proof.
  split; [apply parseDateString_spec|].
  split; [intros Y m D; split; [apply roundTrips_fwd | apply roundTrips_bwd]|].
  split; [reflexivity|]. split; vm_compute; reflexivity.
Qed.

(** ** Further properties of the row parser and the mappings *)

Lemma or_default_nonempty (x : option string) (d : string) :
  d <> "" -> JS.or_default x d <> "".
Proof.
  intros Hd. destruct x as [[|c s]|]; simpl; [assumption | discriminate | assumption].
Qed.

Lemma mapPrimary_notes (cleanValues : list string) (c : Complaint) :
  mapPrimary cleanValues = Some c -> notes c <> "".
Proof.
  intros Hm. destruct (mapPrimary_Some _ _ Hm) as (H0 & _).
  destruct (mapPrimary_defined _ H0) as (c' & Hm' & _ & _ & Hn & _).
  assert (c' = c) by congruence. subst c'. rewrite Hn.
  now apply or_default_nonempty.
Qed.

Lemma mapCompleted_notes (cleanValues : list string) (c : Complaint) :
  mapCompleted cleanValues = Some c -> notes c <> "".
Proof.
  intros Hm. destruct (mapCompleted_Some _ _ Hm) as (H0 & _).
  destruct (mapCompleted_defined _ H0) as (c' & Hm' & _ & _ & Hn & _).
  assert (c' = c) by congruence. subst c'. rewrite Hn.
  now apply or_default_nonempty.
Qed.

Lemma unified_record_fields (t1 t2 : string) (l : list Complaint) (c : Complaint) :
  fetchData t1 t2 = Some l -> c ∈ l -> id c <> "" /\ notes c <> "".
Proof.
  intros Hf Hc. apply fetchData_Some in Hf as ->.
  apply elem_of_combinedData in Hc as [Hp | [Hs _]].
  - apply elem_of_parseGoogleSheetCSV in Hp as (line & _ & Hm & Hid).
    split; [assumption | eapply mapPrimary_notes; eassumption].
  - apply elem_of_parseCompletedGoogleSheetCSV in Hs as (line & _ & Hm & Hid).
    split; [assumption | eapply mapCompleted_notes; eassumption].
Qed.

(** X1: every record of the unified collection has an id that is not empty
    and notes that are not empty. *)
Theorem unified_records_have_id_and_notes (tasksCsvText completedCsvText : string)
    (l : list Complaint) (c : Complaint) :
  fetchData tasksCsvText completedCsvText = Some l ->
  c ∈ l ->
  id c <> "" /\ notes c <> "".
Proof. apply unified_record_fields. Qed.

Lemma unified_records_have_id_and_notes_witness :
  id (withDate "1" "a") <> "" /\ notes (withDate "1" "a") <> "".
Proof.
  apply (unified_records_have_id_and_notes (joinLines ["id,date"; "1,a"; ",b"])
           (joinLines ["id"; "3"]) [withDate "1" "a"; completedRecord "3"]).
  - vm_compute. reflexivity.
  - left.
Defined.

Lemma split_without_separator (sep : ascii) (s : string) :
  occurs sep s = false -> JS.split sep s = [s].
Proof.
  induction s as [|c s IH]; simpl; [reflexivity|].
  intros H. apply orb_false_iff in H as [Hc Hs].
  rewrite Hc, (IH Hs). reflexivity.
Qed.

(** X2: a text that holds no line feed once trimmed, such as the empty text
    or a header alone, gives no record under either mapping, and the
    unified collection of two such texts is empty. *)
Theorem header_only_text_gives_nothing (tasksCsvText completedCsvText : string) :
  occurs newline (JS.trim tasksCsvText) = false ->
  occurs newline (JS.trim completedCsvText) = false ->
  parseGoogleSheetCSV tasksCsvText = []
  /\ parseCompletedGoogleSheetCSV completedCsvText = []
  /\ (fetchData tasksCsvText completedCsvText = Some []
      \/ fetchData tasksCsvText completedCsvText = None).
Proof.
  intros H1 H2.
  assert (E1 : parseGoogleSheetCSV tasksCsvText = []).
  { unfold parseGoogleSheetCSV, dataLines.
    now rewrite (split_without_separator _ _ H1). }
  assert (E2 : parseCompletedGoogleSheetCSV completedCsvText = []).
  { unfold parseCompletedGoogleSheetCSV, dataLines.
    now rewrite (split_without_separator _ _ H2). }
  split; [assumption|]. split; [assumption|].
  unfold fetchData. rewrite E1, E2. destruct (JS.includes _ _); auto.
Qed.

Lemma header_only_text_gives_nothing_witness :
  parseGoogleSheetCSV "id,date,step" = []
  /\ parseCompletedGoogleSheetCSV "" = []
  /\ (fetchData "id,date,step" "" = Some [] \/ fetchData "id,date,step" "" = None).
Proof.
  apply (header_only_text_gives_nothing "id,date,step" ""); reflexivity.
Defined.

Lemma concat_cons_cons (sep x y : string) (l : list string) :
  String.concat sep (x :: y :: l) = x +:+ sep +:+ String.concat sep (y :: l).
Proof. reflexivity. Qed.

Lemma splitCSV_aux_concat (s : string) :
  String.concat "," (fst (splitCSV_aux s)) = s.
Proof.
  induction s as [|c s IH]; [reflexivity|].
  cbn [splitCSV_aux].
  destruct (splitCSV_aux_cons s) as (h & t & Hr).
  destruct (splitCSV_aux s) as [r even]. cbn [fst] in Hr, IH. subst r.
  destruct (Ascii.eqb c "," && even) eqn:E; cbn [fst JS.cons_head].
  - apply andb_true_iff in E as [Ec _]. apply Ascii.eqb_eq in Ec. subst c.
    rewrite concat_cons_cons, IH. reflexivity.
  - destruct t as [|y t].
    + cbn [String.concat] in *. now rewrite IH.
    + rewrite concat_cons_cons in *. rewrite append_cons. now rewrite IH.
Qed.

(** X3: splitting a line into fields removes separator commas and nothing
    else: the fields joined by commas are the line. *)
Theorem splitCSV_join (line : string) :
  String.concat "," (splitCSV line) = line /\ splitCSV line <> [].
Proof.
  split; [apply splitCSV_aux_concat|].
  unfold splitCSV. destruct (splitCSV_aux_cons line) as (h & t & ->). discriminate.
Qed.

Lemma append_nil_r (s : string) : s +:+ "" = s.
Proof. induction s as [|c s IH]; sapp; [reflexivity | now rewrite IH]. Qed.

Lemma append_assoc (a b c : string) : (a +:+ b) +:+ c = a +:+ b +:+ c.
Proof. induction a as [|x a IH]; sapp; [reflexivity | now rewrite IH]. Qed.

Lemma occurs_append (c : ascii) (a b : string) :
  occurs c (a +:+ b) = occurs c a || occurs c b.
Proof.
  induction a as [|x a IH]; sapp; [reflexivity|].
  now rewrite IH, orb_assoc.
Qed.

Lemma trimEnd_snoc (s : string) (c : ascii) :
  JS.isWhiteSpace c = false ->
  JS.trimEnd (s +:+ String c "") = s +:+ String c "".
Proof.
  intros Hc. induction s as [|a s IH]; sapp.
  - now rewrite Hc.
  - rewrite IH. destruct s; reflexivity.
Qed.

Lemma stripTrailingQuote_snoc (s : string) :
  stripTrailingQuote (s +:+ String dquote "") = s.
Proof.
  induction s as [|a s IH]; [reflexivity|].
  rewrite append_cons. cbn [stripTrailingQuote].
  rewrite IH. destruct s; reflexivity.
Qed.

Lemma cleanValue_quoted (f : string) : cleanValue (quoted f) = f.
Proof.
  unfold cleanValue, quoted, JS.trim.
  change (JS.trimStart (String dquote (f +:+ String dquote "")))
    with (String dquote (f +:+ String dquote "")).
  rewrite <- append_cons, trimEnd_snoc by reflexivity.
  rewrite append_cons. unfold stripQuotes.
  change (Ascii.eqb dquote dquote) with true. cbv iota.
  apply stripTrailingQuote_snoc.
Qed.

Lemma splitCSV_aux_inside (u s h : string) (t : list string) :
  occurs dquote u = false ->
  splitCSV_aux s = (h :: t, false) ->
  splitCSV_aux (u +:+ s) = ((u +:+ h) :: t, false).
Proof.
  intros Hu Hs. induction u as [|c u IH]; [exact Hs|].
  simpl in Hu. apply orb_false_iff in Hu as [Hc Hu].
  rewrite append_cons. cbn [splitCSV_aux]. rewrite (IH Hu).
  rewrite andb_false_r, Hc. reflexivity.
Qed.

Lemma splitCSV_aux_quoted (f rest h : string) (t : list string) :
  occurs dquote f = false ->
  splitCSV_aux rest = (h :: t, true) ->
  splitCSV_aux (quoted f +:+ rest) = ((quoted f +:+ h) :: t, true).
Proof.
  intros Hf Hr. unfold quoted.
  rewrite !append_cons, !append_assoc, !append_cons, !append_nil_l.
  assert (Hq : splitCSV_aux (String dquote rest) = (String dquote h :: t, false)).
  { cbn [splitCSV_aux]. rewrite Hr. reflexivity. }
  cbn [splitCSV_aux]. rewrite (splitCSV_aux_inside _ _ _ _ Hf Hq). reflexivity.
Qed.

Lemma plainRow_cons (cs : list ascii) (f : string) (fs : list string) :
  plainRow cs (f :: fs) = true ->
  forallb (fun c => negb (occurs c f)) cs = true
  /\ (fs = [] \/ plainRow cs fs = true).
Proof.
  unfold plainRow. cbn [length Nat.eqb negb andb forallb].
  intros H. apply andb_true_iff in H as [Hf Hfs]. split; [assumption|].
  destruct fs; [now left | right; exact Hfs].
Qed.

Lemma splitCSV_aux_exportLine (fields : list string) :
  plainRow [dquote] fields = true ->
  splitCSV_aux (exportLine fields) = (quoted <$> fields, true).
Proof.
  induction fields as [|f fs IH]; [discriminate|].
  intros H. apply plainRow_cons in H as [Hf Hfs].
  cbn [forallb] in Hf. rewrite andb_true_r in Hf. apply negb_true_iff in Hf.
  destruct fs as [|g fs].
  - unfold exportLine. cbn [fmap list_fmap String.concat].
    rewrite <- (append_nil_r (quoted f)) at 1.
    rewrite (splitCSV_aux_quoted f "" "" [] Hf eq_refl).
    now rewrite append_nil_r.
  - destruct Hfs as [|Hfs]; [discriminate|]. specialize (IH Hfs).
    unfold exportLine in *. rewrite fmap_cons, fmap_cons, concat_cons_cons.
    rewrite <- fmap_cons.
    assert (Hc : splitCSV_aux ("," +:+ String.concat "," (quoted <$> g :: fs))
                 = ("" :: (quoted <$> g :: fs), true)).
    { rewrite append_cons, append_nil_l. cbn [splitCSV_aux]. rewrite IH. reflexivity. }
    rewrite (splitCSV_aux_quoted f _ _ _ Hf Hc). now rewrite append_nil_r.
Qed.

Lemma cleanLine_exportLine (fields : list string) :
  plainRow [dquote] fields = true -> cleanLine (exportLine fields) = fields.
Proof.
  intros H. unfold cleanLine, splitCSV.
  rewrite (splitCSV_aux_exportLine _ H). cbn [fst].
  rewrite <- list_fmap_compose. rewrite <- (list_fmap_id fields) at 2.
  apply list_fmap_ext. intros i f _. apply cleanValue_quoted.
Qed.

(** X4: a line in which every field stands in double quotes, none holding
    a double quote itself, is read back field by field, commas and
    surrounding white space inside the quotes included; the mappings then
    see the very fields that were written. *)
Theorem exportLine_read_back (fields : list string) :
  plainRow [dquote] fields = true ->
  cleanLine (exportLine fields) = fields
  /\ mapPrimary (cleanLine (exportLine fields)) = mapPrimary fields
  /\ mapCompleted (cleanLine (exportLine fields)) = mapCompleted fields.
Proof. intros H. now rewrite (cleanLine_exportLine _ H). Qed.

Lemma exportLine_read_back_witness :
  cleanLine (exportLine ["7"; " Smith, John "; ""]) = ["7"; " Smith, John "; ""]
  /\ mapPrimary (cleanLine (exportLine ["7"; " Smith, John "; ""]))
     = mapPrimary ["7"; " Smith, John "; ""]
  /\ mapCompleted (cleanLine (exportLine ["7"; " Smith, John "; ""]))
     = mapCompleted ["7"; " Smith, John "; ""].
Proof. apply (exportLine_read_back ["7"; " Smith, John "; ""]). reflexivity. Defined.

Lemma joinLines_cons (l : string) (ls : list string) :
  joinLines (l :: ls) = l +:+ restLines ls.
Proof.
  unfold joinLines. revert l. induction ls as [|x ls IH]; intros l.
  - simpl. now rewrite append_nil_r.
  - cbn [fold_left]. rewrite IH. cbn [restLines fold_right].
    now rewrite append_assoc.
Qed.

Lemma split_app_nosep (sep : ascii) (u s h : string) (t : list string) :
  occurs sep u = false -> JS.split sep s = h :: t ->
  JS.split sep (u +:+ s) = (u +:+ h) :: t.
Proof.
  intros Hu Hs. induction u as [|c u IH]; [exact Hs|].
  simpl in Hu. apply orb_false_iff in Hu as [Hc Hu].
  rewrite append_cons. cbn [JS.split]. rewrite Hc, (IH Hu). reflexivity.
Qed.

Lemma split_lines (l : string) (ls : list string) :
  occurs newline l = false ->
  forallb (fun x => negb (occurs newline x)) ls = true ->
  JS.split newline (l +:+ restLines ls) = l :: ls.
Proof.
  revert l. induction ls as [|x ls IH]; intros l Hl Hls.
  - cbn [restLines fold_right]. rewrite append_nil_r.
    now apply split_without_separator.
  - cbn [forallb] in Hls. apply andb_true_iff in Hls as [Hx Hls].
    apply negb_true_iff in Hx. cbn [restLines fold_right].
    fold (restLines ls). rewrite append_cons.
    assert (E : JS.split newline (String newline (x +:+ restLines ls))
                = "" :: x :: ls).
    { cbn [JS.split]. change (Ascii.eqb newline newline) with true. cbv iota.
      now rewrite IH. }
    rewrite (split_app_nosep _ _ _ _ _ Hl E). now rewrite append_nil_r.
Qed.

Lemma occurs_quoted (c : ascii) (f : string) :
  Ascii.eqb dquote c = false -> occurs c (quoted f) = occurs c f.
Proof.
  intros Hc. unfold quoted. cbn [occurs]. rewrite Hc, occurs_append.
  cbn [occurs]. rewrite Hc. now rewrite !orb_false_r.
Qed.

Lemma plainRow_weaken (row : list string) :
  plainRow [dquote; newline] row = true ->
  plainRow [dquote] row = true
  /\ forallb (fun f => negb (occurs newline f)) row = true.
Proof.
  unfold plainRow. intros H. apply andb_true_iff in H as [Hn H].
  rewrite Hn. cbn [andb]. clear Hn. induction row as [|f row IH]; [auto|].
  cbn [forallb] in *. rewrite !andb_true_r in *.
  apply andb_true_iff in H as [Hf H]. apply andb_true_iff in Hf as [Hq Hl].
  destruct (IH H) as [IH1 IH2]. rewrite Hq, Hl, IH1, IH2. auto.
Qed.

Lemma occurs_newline_exportLine (row : list string) :
  forallb (fun f => negb (occurs newline f)) row = true ->
  occurs newline (exportLine row) = false.
Proof.
  unfold exportLine. induction row as [|f row IH]; [reflexivity|].
  cbn [forallb]. intros H. apply andb_true_iff in H as [Hf H].
  apply negb_true_iff in Hf. specialize (IH H).
  rewrite fmap_cons. destruct row as [|g row].
  - cbn [fmap list_fmap String.concat]. now rewrite occurs_quoted.
  - rewrite fmap_cons, concat_cons_cons, <- fmap_cons.
    rewrite !occurs_append, occurs_quoted, Hf, IH by reflexivity. reflexivity.
Qed.

Lemma exportLine_quotes (row : list string) :
  plainRow [dquote] row = true ->
  exists u v, exportLine row = String dquote u
              /\ exportLine row = v +:+ String dquote "".
Proof.
  unfold exportLine. induction row as [|f row IH]; [discriminate|].
  intros H. apply plainRow_cons in H as [_ Hrow]. rewrite fmap_cons.
  destruct row as [|g row].
  - cbn [fmap list_fmap String.concat]. unfold quoted.
    exists (f +:+ String dquote ""), (String dquote f). split; reflexivity.
  - destruct Hrow as [|Hrow]; [discriminate|].
    destruct (IH Hrow) as (u & v & _ & Hv).
    rewrite fmap_cons, concat_cons_cons, <- fmap_cons. rewrite Hv.
    unfold quoted at 1.
    exists ((f +:+ String dquote "") +:+ "," +:+ v +:+ String dquote "").
    exists (String dquote (f +:+ String dquote "") +:+ "," +:+ v).
    split; [reflexivity|]. now rewrite !append_assoc.
Qed.

Lemma restLines_quotes (ls : list string) :
  ls <> [] ->
  Forall (fun x => exists v, x = v +:+ String dquote "") ls ->
  exists v, restLines ls = v +:+ String dquote "".
Proof.
  induction ls as [|x ls IH]; [congruence|]. intros _ H.
  apply Forall_cons in H as [[v Hv] H]. cbn [restLines fold_right].
  fold (restLines ls). destruct ls as [|y ls].
  - cbn [restLines fold_right]. rewrite append_nil_r, Hv.
    exists (String newline v). reflexivity.
  - destruct (IH ltac:(discriminate) H) as (w & Hw). rewrite Hw.
    exists (String newline x +:+ w). now rewrite append_assoc.
Qed.

Lemma trim_exportText (header : list string) (rows : list (list string)) :
  plainRow [dquote] header = true ->
  forallb (plainRow [dquote]) rows = true ->
  JS.trim (exportText header rows) = exportText header rows.
Proof.
  intros Hh Hr. unfold exportText. rewrite joinLines_cons.
  destruct (exportLine_quotes _ Hh) as (u & v & Hu & Hv).
  assert (Hend : exists w, exportLine header +:+ restLines (exportLine <$> rows)
                           = w +:+ String dquote "").
  { destruct rows as [|r rows].
    - cbn [fmap list_fmap restLines fold_right]. rewrite append_nil_r. eauto.
    - destruct (restLines_quotes (exportLine <$> r :: rows)) as (w & Hw).
      + discriminate.
      + apply Forall_fmap, Forall_forall. intros row Hrow.
        rewrite forallb_forall in Hr.
        apply list_elem_of_In in Hrow. specialize (Hr row Hrow).
        destruct (exportLine_quotes _ Hr) as (_ & v' & _ & Hv'). eauto.
      + rewrite Hw. exists (exportLine header +:+ w). now rewrite append_assoc. }
  destruct Hend as (w & Hw). unfold JS.trim.
  rewrite Hu at 1. rewrite append_cons.
  change (JS.trimStart (String dquote (u +:+ restLines (exportLine <$> rows))))
    with (String dquote (u +:+ restLines (exportLine <$> rows))).
  rewrite <- append_cons, <- Hu, Hw. now apply trimEnd_snoc.
Qed.

(** X5: a text made of a header line and one line for each row, every cell
    in double quotes and none holding a double quote or a line feed, is read
    back row by row: the header is dropped, and each mapping is applied to
    the cells as written, keeping the rows whose first cell is not empty, in
    their order. *)
Theorem exportText_read_back (header : list string) (rows : list (list string)) :
  plainRow [dquote; newline] header = true ->
  forallb (plainRow [dquote; newline]) rows = true ->
  dataLines (exportText header rows) = exportLine <$> rows
  /\ parseGoogleSheetCSV (exportText header rows) = recordsOf mapPrimary rows
  /\ parseCompletedGoogleSheetCSV (exportText header rows)
     = recordsOf mapCompleted rows.
Proof.
  intros Hh Hr.
  assert (Hr1 : forallb (plainRow [dquote]) rows = true).
  { rewrite forallb_forall in *. intros r Hin.
    now apply plainRow_weaken, Hr. }
  assert (Hd : dataLines (exportText header rows) = exportLine <$> rows).
  { unfold dataLines.
    rewrite trim_exportText by (try apply plainRow_weaken; assumption).
    unfold exportText. rewrite joinLines_cons, split_lines; [reflexivity | |].
    - now apply occurs_newline_exportLine, plainRow_weaken.
    - rewrite forallb_forall. intros x Hx.
      apply list_elem_of_In, list_elem_of_fmap in Hx as (r & -> & Hin).
      rewrite forallb_forall in Hr. apply list_elem_of_In in Hin.
      apply negb_true_iff, occurs_newline_exportLine, plainRow_weaken, Hr, Hin. }
  split; [assumption|].
  unfold parseGoogleSheetCSV, parseCompletedGoogleSheetCSV, recordsOf.
  rewrite Hd, <- !list_fmap_compose.
  rewrite forallb_forall in Hr1. clear Hd Hr Hh.
  split; induction rows as [|r rows IH]; try reflexivity;
    cbn [fmap list_fmap omap list_omap compose];
    (rewrite (cleanLine_exportLine r) by (apply Hr1; now left));
    (rewrite IH by (intros x Hx; apply Hr1; now right)); reflexivity.
Qed.

Lemma exportText_read_back_witness :
  dataLines (exportText ["id"; "date"] [["1"; "a, b"]; [""; "c"]; ["2"]])
  = exportLine <$> [["1"; "a, b"]; [""; "c"]; ["2"]]
  /\ parseGoogleSheetCSV (exportText ["id"; "date"] [["1"; "a, b"]; [""; "c"]; ["2"]])
     = recordsOf mapPrimary [["1"; "a, b"]; [""; "c"]; ["2"]]
  /\ parseCompletedGoogleSheetCSV
       (exportText ["id"; "date"] [["1"; "a, b"]; [""; "c"]; ["2"]])
     = recordsOf mapCompleted [["1"; "a, b"]; [""; "c"]; ["2"]].
Proof.
  apply (exportText_read_back ["id"; "date"] [["1"; "a, b"]; [""; "c"]; ["2"]]);
    reflexivity.
Defined.

(** ** Counts and the derived view *)

Lemma status_split_length (l : list Complaint) :
  (length (List.filter (fun c => status_eqb (status c) Closed) l)
   + length (List.filter (fun c => status_eqb (status c) InProgress) l)
   = length l)%nat.
Proof.
  induction l as [|c l IH]; [reflexivity|].
  cbn [List.filter]. destruct (status c); cbn [status_eqb length]; lia.
Qed.

(** X6: the three summary values are consistent with each other and with
    the count of the header: the in-progress value, computed as the total
    less the closed ones, is the number of records whose status is
    in-progress, and no value is negative. *)
Theorem summary_values_consistent (complaints : list Complaint) :
  inProgressTasks complaints = Z.of_nat (inProgressCount complaints)
  /\ totalComplaintsValue complaints
     = completedTasksValue complaints + inProgressTasks complaints
  /\ 0 <= completedTasksValue complaints <= totalComplaintsValue complaints
  /\ 0 <= inProgressTasks complaints.
Proof.
  unfold inProgressTasks, totalComplaintsValue, completedTasksValue, inProgressCount.
  pose proof (status_split_length complaints). lia.
Qed.

Lemma filter_length_Permutation {A} (p : A -> bool) (l l' : list A) :
  Permutation l l' -> length (List.filter p l) = length (List.filter p l').
Proof.
  induction 1 as [|x l l' _ IH|x y l|l l' l'' _ IH1 _ IH2]; cbn [List.filter].
  - reflexivity.
  - destruct (p x); cbn [length]; now rewrite IH.
  - destruct (p x), (p y); reflexivity.
  - now rewrite IH1.
Qed.

Lemma sortedTasks_Permutation (allComplaints : list Complaint)
    (sortConfig : option (SortKey * SortOrder)) :
  Permutation allComplaints (sortedTasks allComplaints sortConfig).
Proof.
  destruct sortConfig as [[key order]|]; [apply sort_Permutation | reflexivity].
Qed.

Lemma filter_all_true {A} (p : A -> bool) (l : list A) :
  (forall x, p x = true) -> List.filter p l = l.
Proof.
  intros Hp. induction l as [|x l IH]; [reflexivity|].
  cbn [List.filter]. now rewrite Hp, IH.
Qed.

(** X7: with no search term and no country or complaint-type selected, the
    rows shown under each status selector are as many as the summary value
    of that selector, whatever the sort: all records for [all], the closed
    value for [closed] and the in-progress value for [in-progress]. *)
Theorem card_value_is_row_count (allComplaints : list Complaint)
    (sortConfig : option (SortKey * SortOrder)) :
  let rows statusFilter :=
    filteredTasks (sortedTasks allComplaints sortConfig) "" "" "" statusFilter in
  rows FilterAll = sortedTasks allComplaints sortConfig
  /\ Z.of_nat (length (rows FilterAll)) = totalComplaintsValue allComplaints
  /\ Z.of_nat (length (rows (FilterStatus Closed)))
     = completedTasksValue allComplaints
  /\ Z.of_nat (length (rows (FilterStatus InProgress)))
     = inProgressTasks allComplaints.
Proof.
  intros rows. pose proof (sortedTasks_Permutation allComplaints sortConfig) as HP.
  assert (E : forall sf, rows sf = List.filter (matchesStatus sf)
                                     (sortedTasks allComplaints sortConfig)).
  { intros sf. unfold rows, filteredTasks. apply filter_ext. intros c.
    unfold matchesCountry, matchesComplaintType, matchesSearch. cbn [JS.falsy orb].
    now rewrite !andb_true_r. }
  assert (EA : rows FilterAll = sortedTasks allComplaints sortConfig).
  { rewrite E. now apply filter_all_true. }
  split; [assumption|]. split; [|split].
  - rewrite EA. unfold totalComplaintsValue. f_equal. symmetry.
    now apply Permutation_length.
  - rewrite E. unfold completedTasksValue. f_equal. symmetry.
    now apply (filter_length_Permutation (matchesStatus (FilterStatus Closed))).
  - rewrite E. unfold inProgressTasks, totalComplaintsValue, completedTasksValue.
    pose proof (status_split_length allComplaints) as Hsplit.
    rewrite <- (filter_length_Permutation (matchesStatus (FilterStatus InProgress))
                  _ _ HP).
    change (matchesStatus (FilterStatus InProgress))
      with (fun c => status_eqb (status c) InProgress). lia.
Qed.

Lemma filter_sublist {A} (p : A -> bool) (l : list A) : sublist (List.filter p l) l.
Proof.
  induction l as [|x l IH]; [constructor|].
  cbn [List.filter]. destruct (p x); now constructor.
Qed.

(** X8: the rows shown are a subsequence of the sorted collection, which is
    a rearrangement of the collection: no record is shown that is not in the
    collection, none is shown more often than it occurs there, and a record
    is shown exactly when it is in the collection and passes the four
    filters. *)
Theorem view_is_filtered_rearrangement (allComplaints : list Complaint)
    (sortConfig : option (SortKey * SortOrder))
    (searchTerm selectedCountry selectedComplaintType : string)
    (statusFilter : StatusFilter) :
  let sorted := sortedTasks allComplaints sortConfig in
  let shown := filteredTasks sorted searchTerm selectedCountry
                             selectedComplaintType statusFilter in
  Permutation allComplaints sorted
  /\ sublist shown sorted
  /\ (length shown <= length allComplaints)%nat
  /\ (forall c, c ∈ shown <->
        c ∈ allComplaints
        /\ matchesStatus statusFilter c = true
        /\ matchesCountry selectedCountry c = true
        /\ matchesComplaintType selectedComplaintType c = true
        /\ matchesSearch searchTerm c = true).
Proof.
  intros sorted shown.
  pose proof (sortedTasks_Permutation allComplaints sortConfig) as HP.
  fold sorted in HP.
  assert (Hs : sublist shown sorted) by apply filter_sublist.
  split; [assumption|]. split; [assumption|]. split.
  - rewrite (Permutation_length HP). now apply sublist_length.
  - intros c. unfold shown, filteredTasks.
    rewrite list_elem_of_In, filter_In, <- list_elem_of_In.
    rewrite !andb_true_iff.
    assert (c ∈ sorted <-> c ∈ allComplaints).
    { rewrite !list_elem_of_In. split; apply Permutation_in;
        [now apply Permutation_sym | assumption]. }
    tauto.
Qed.

(** ** The order of strings *)

Lemma str_lt_irrefl (s : string) : JS.str_lt s s = false.
Proof.
  induction s as [|c s IH]; [reflexivity|]. cbn [JS.str_lt].
  now rewrite Z.ltb_irrefl.
Qed.

Lemma str_lt_trichotomy (s t : string) :
  (JS.str_lt s t = true /\ JS.str_lt t s = false)
  \/ (s = t)
  \/ (JS.str_lt s t = false /\ JS.str_lt t s = true).
Proof.
  revert t. induction s as [|a s IH]; intros [|b t]; cbn [JS.str_lt]; auto.
  destruct (Z.ltb_spec (JS.code a) (JS.code b)),
    (Z.ltb_spec (JS.code b) (JS.code a)); try lia; auto.
  assert (a = b) by (apply code_inj; lia). subst b.
  destruct (IH t) as [? | [-> | ?]]; auto.
Qed.

Lemma str_lt_trans (s t u : string) :
  JS.str_lt s t = true -> JS.str_lt t u = true -> JS.str_lt s u = true.
Proof.
  revert t u. induction s as [|a s IH]; intros [|b t] [|c u];
    cbn [JS.str_lt]; try congruence.
  destruct (Z.ltb_spec (JS.code a) (JS.code b)),
    (Z.ltb_spec (JS.code b) (JS.code a)),
    (Z.ltb_spec (JS.code b) (JS.code c)),
    (Z.ltb_spec (JS.code c) (JS.code b)),
    (Z.ltb_spec (JS.code a) (JS.code c)),
    (Z.ltb_spec (JS.code c) (JS.code a)); try lia; try congruence.
  apply IH.
Qed.

Section TextOrder.
Context {A : Type} (f : A -> string).

Lemma textLe_total (a b : A) : textLe f a b \/ textLe f b a.
Proof. unfold textLe. destruct (str_lt_trichotomy (f a) (f b)) as [? | [-> | ?]];
  rewrite ?str_lt_irrefl; tauto. Qed.

Lemma textLe_trans (a b c : A) : textLe f a b -> textLe f b c -> textLe f a c.
Proof.
  unfold textLe. intros Hab Hbc.
  destruct (JS.str_lt (f c) (f a)) eqn:Hca; [|reflexivity].
  destruct (str_lt_trichotomy (f a) (f b)) as [[H _] | [E | [_ H]]];
    [|rewrite E in *; congruence | congruence].
  rewrite (str_lt_trans _ _ _ Hca H) in Hbc. discriminate.
Qed.

Lemma textLe_dec (a b : A) : textLe f a b \/ ~ textLe f a b.
Proof. unfold textLe. destruct (JS.str_lt (f b) (f a)); auto. Qed.

Lemma not_textLe (a b : A) : ~ textLe f b a <-> JS.str_lt (f a) (f b) = true.
Proof. unfold textLe. destruct (JS.str_lt (f a) (f b)); split; congruence. Qed.

End TextOrder.

Lemma compareTasks_text_neg (key : SortKey) (order : SortOrder) (a b : Complaint) :
  key <> Kid -> key <> KplannedDate ->
  compareTasks key order a b < 0 <-> ~ textOrder key order b a.
Proof.
  intros H1 H2.
  assert (E : compareTasks key order a b
              = byOrder order (JS.str_lt (field key a) (field key b))
                              (JS.str_lt (field key b) (field key a))).
  { unfold compareTasks. rewrite !or_default_self. destruct key; congruence. }
  rewrite E, byOrder_neg. unfold textOrder. destruct order.
  - destruct (JS.str_lt (field key a) (field key b)); split; congruence.
  - destruct (str_lt_trichotomy (field key a) (field key b)) as [[-> ->] | [-> | [-> ->]]];
      rewrite ?str_lt_irrefl; intuition congruence.
Qed.

(** X9: sorting by a key other than [id] and [plannedDate] rearranges the
    collection into the order of that field's strings, compared by code
    units, ascending or descending as requested; sorting by [status]
    ascending thereby puts no in-progress record before a closed one. *)
Theorem sort_by_text_key (key : SortKey) (order : SortOrder) (l : list Complaint) :
  key <> Kid -> key <> KplannedDate ->
  Permutation l (sortedTasks l (Some (key, order)))
  /\ StronglySorted (textOrder key order) (sortedTasks l (Some (key, order)))
  /\ StronglySorted (fun a b => status a = InProgress -> status b = InProgress)
                    (sortedTasks l (Some (Kstatus, asc))).
Proof.
  intros H1 H2. split; [apply sort_Permutation|].
  assert (Hs : forall k o, k <> Kid -> k <> KplannedDate ->
                 StronglySorted (textOrder k o) (sortedTasks l (Some (k, o)))).
  { intros k o Hk1 Hk2. apply sort_into.
    - intros a b. now apply compareTasks_text_neg.
    - intros a b. destruct o; [apply (textLe_total (field k)) |
                               apply (textLe_total (field k) b a)].
    - intros a b c. destruct o; unfold textOrder; intros Hab Hbc.
      + exact (textLe_trans (field k) a b c Hab Hbc).
      + exact (textLe_trans (field k) c b a Hbc Hab).
    - intros a b. destruct o; [apply (textLe_dec (field k)) |
                               apply (textLe_dec (field k) b a)]. }
  split; [now apply Hs|].
  eapply StronglySorted_impl; [|apply (Hs Kstatus asc); discriminate].
  intros a b. unfold textOrder. cbn [field].
  destruct (status a), (status b); vm_compute; congruence.
Qed.

Lemma sort_by_text_key_witness :
  let l := [mkComplaint "1" "" "" "" "zoe" "" "" "" "" "" "N/A" "" InProgress;
            mkComplaint "2" "" "" "" "Adam" "" "" "" "" "" "N/A" "" Closed] in
  Permutation l (sortedTasks l (Some (KfullName, desc)))
  /\ StronglySorted (textOrder KfullName desc) (sortedTasks l (Some (KfullName, desc)))
  /\ StronglySorted (fun a b => status a = InProgress -> status b = InProgress)
                    (sortedTasks l (Some (Kstatus, asc))).
Proof. intros l. apply (sort_by_text_key KfullName desc l); discriminate. Defined.

(** ** Title case and the selector lists *)

Lemma toLowerChar_idem (c : ascii) :
  JS.toLowerChar (JS.toLowerChar c) = JS.toLowerChar c.
Proof. destruct c as [[] [] [] [] [] [] [] []]; reflexivity. Qed.

Lemma toLowerChar_toUpperChar (c : ascii) :
  JS.toLowerChar (JS.toUpperChar (JS.toLowerChar c)) = JS.toLowerChar c.
Proof. destruct c as [[] [] [] [] [] [] [] []]; reflexivity. Qed.

Lemma toLowerCase_replaceWordStart (prevWord : bool) (s : string) :
  JS.toLowerCase (replaceWordStart JS.toUpperChar prevWord (JS.toLowerCase s))
  = JS.toLowerCase s.
Proof.
  unfold JS.toLowerCase. revert prevWord.
  induction s as [|c s IH]; intros prevWord; [reflexivity|].
  cbn [JS.map_chars replaceWordStart]. rewrite IH. f_equal.
  destruct (_ && _); [apply toLowerChar_toUpperChar | apply toLowerChar_idem].
Qed.

Lemma toTitleCase_empty_iff (s : string) : toTitleCase s = "" <-> s = "".
Proof.
  unfold toTitleCase. destruct s as [|c s]; [tauto|].
  cbn. split; discriminate.
Qed.

Lemma toLowerCase_toTitleCase (s : string) :
  JS.toLowerCase (toTitleCase s) = JS.toLowerCase s.
Proof.
  unfold toTitleCase. destruct s as [|c s]; [reflexivity|].
  change (JS.falsy (String c s)) with false. cbv iota.
  apply toLowerCase_replaceWordStart.
Qed.

Lemma toLowerCase_empty_iff (s : string) : JS.toLowerCase s = "" <-> s = "".
Proof. destruct s; cbn; split; congruence. Qed.

(** X10: [toTitleCase] gives the same value for two strings exactly when
    they are equal with case ignored, it is idempotent, so that an option
    of a selector is its own normal form, and it returns the empty string
    only for the empty string. *)
Theorem toTitleCase_normal_form (a b : string) :
  (toTitleCase a = toTitleCase b <-> JS.toLowerCase a = JS.toLowerCase b)
  /\ toTitleCase (toTitleCase a) = toTitleCase a
  /\ (toTitleCase a = "" <-> a = "").
Proof.
  assert (H : forall x y, JS.toLowerCase x = JS.toLowerCase y ->
                          toTitleCase x = toTitleCase y).
  { intros x y E. unfold toTitleCase. rewrite E.
    destruct x as [|c x], y as [|d y]; try reflexivity; discriminate. }
  split; [split|split].
  - intros E. rewrite <- (toLowerCase_toTitleCase a), E.
    apply toLowerCase_toTitleCase.
  - apply H.
  - apply H, toLowerCase_toTitleCase.
  - apply toTitleCase_empty_iff.
Qed.

Lemma elem_of_Set_values_from (seen : gset string) (xs : list string) (x : string) :
  x ∈ JS.Set_values_from seen xs <-> x ∈ xs /\ x ∉ seen.
Proof.
  revert seen. induction xs as [|y xs IH]; intros seen; cbn [JS.Set_values_from].
  - split; [intros H; inversion H | intros [H _]; inversion H].
  - destruct (decide (y ∈ seen)) as [Hy | Hy].
    + rewrite IH, elem_of_cons. split; [tauto|].
      intros [[-> | Hx] Hn]; [contradiction | tauto].
    + rewrite !elem_of_cons, IH. rewrite elem_of_union, elem_of_singleton.
      destruct (decide (x = y)) as [-> | Hne]; tauto.
Qed.

Lemma NoDup_Set_values_from (seen : gset string) (xs : list string) :
  NoDup (JS.Set_values_from seen xs).
Proof.
  revert seen. induction xs as [|y xs IH]; intros seen; cbn [JS.Set_values_from].
  - constructor.
  - destruct (decide (y ∈ seen)); [apply IH|].
    apply NoDup_cons. split; [|apply IH].
    rewrite elem_of_Set_values_from, elem_of_union, elem_of_singleton. tauto.
Qed.

Lemma defaultCompare_neg (x y : string) :
  JS.defaultCompare x y < 0 <-> ~ textLe (fun s => s) y x.
Proof.
  unfold JS.defaultCompare, textLe.
  destruct (JS.str_lt x y) eqn:E; [split; [congruence | lia]|].
  destruct (JS.str_lt y x); split; (lia || congruence).
Qed.

Lemma StronglySorted_strict (l : list string) :
  NoDup l ->
  StronglySorted (textLe (fun s => s)) l ->
  StronglySorted (fun a b => JS.str_lt a b = true) l.
Proof.
  intros Hnd Hs. induction Hs as [|x l Hl IH Hx]; [constructor|].
  apply NoDup_cons in Hnd as [Hx' Hnd]. constructor; [auto|].
  apply List.Forall_forall. intros y Hy.
  rewrite List.Forall_forall in Hx. specialize (Hx y Hy). unfold textLe in Hx.
  destruct (str_lt_trichotomy x y) as [[H _] | [-> | [_ H]]];
    [assumption | | congruence].
  exfalso. apply Hx'. now apply list_elem_of_In.
Qed.

Lemma selector_list_spec (values : list string) (v : string) :
  let options := JS.sort JS.defaultCompare
                   (JS.Set_values (toTitleCase <$> List.filter truthy values)) in
  (v ∈ options <-> exists x, x ∈ values /\ x <> "" /\ toTitleCase x = v)
  /\ StronglySorted (fun a b => JS.str_lt a b = true) options.
Proof.
  intros options.
  pose proof (sort_Permutation JS.defaultCompare
                (JS.Set_values (toTitleCase <$> List.filter truthy values))) as HP.
  fold options in HP. split.
  - rewrite <- HP. unfold JS.Set_values. rewrite elem_of_Set_values_from.
    rewrite list_elem_of_fmap. split.
    + intros [(x & -> & Hx) _]. apply list_elem_of_In, filter_In in Hx as [Hx Ht].
      exists x. split; [now apply list_elem_of_In|]. split; [|reflexivity].
      unfold truthy in Ht. apply negb_true_iff, falsy_false_iff in Ht. exact Ht.
    + intros (x & Hx & Hne & <-). split; [|apply not_elem_of_empty].
      exists x. split; [reflexivity|]. apply list_elem_of_In, filter_In.
      split; [now apply list_elem_of_In|].
      unfold truthy. now apply negb_true_iff, falsy_false_iff.
  - apply StronglySorted_strict.
    + rewrite <- HP. apply NoDup_Set_values_from.
    + apply sort_into.
      * apply defaultCompare_neg.
      * apply (textLe_total (fun s => s)).
      * apply (textLe_trans (fun s => s)).
      * apply (textLe_dec (fun s => s)).
Qed.

(** X11: the country selector lists exactly the title-cased forms of the
    countries that are not empty, each once, in strictly ascending order of
    their strings; the complaint-type selector does the same with the
    notes. *)
Theorem selector_lists (allComplaints : list Complaint) (v : string) :
  (v ∈ uniqueCountries allComplaints <->
   exists c, c ∈ allComplaints /\ country c <> "" /\ toTitleCase (country c) = v)
  /\ StronglySorted (fun a b => JS.str_lt a b = true) (uniqueCountries allComplaints)
  /\ (v ∈ uniqueComplaintTypes allComplaints <->
      exists c, c ∈ allComplaints /\ notes c <> "" /\ toTitleCase (notes c) = v)
  /\ StronglySorted (fun a b => JS.str_lt a b = true)
                    (uniqueComplaintTypes allComplaints).
Proof.
  destruct (selector_list_spec (country <$> allComplaints) v) as [H1 H2].
  destruct (selector_list_spec (notes <$> allComplaints) v) as [H3 H4].
  split; [|split; [exact H2 | split; [|exact H4]]].
  - unfold uniqueCountries. rewrite H1. split.
    + intros (x & Hx & Hne & Hv). apply list_elem_of_fmap in Hx as (c & -> & Hc). eauto.
    + intros (c & Hc & Hne & Hv). exists (country c).
      split; [now apply list_elem_of_fmap_2 | auto].
  - unfold uniqueComplaintTypes. rewrite H3. split.
    + intros (x & Hx & Hne & Hv). apply list_elem_of_fmap in Hx as (c & -> & Hc). eauto.
    + intros (c & Hc & Hne & Hv). exists (notes c).
      split; [now apply list_elem_of_fmap_2 | auto].
Qed.

Lemma matchesCountry_set (v : string) (c : Complaint) :
  v <> "" -> matchesCountry v c = true <-> toTitleCase (country c) = v.
Proof.
  intros Hv. apply falsy_false_iff in Hv. unfold matchesCountry.
  now rewrite Hv, orb_false_l, String.eqb_eq.
Qed.

Lemma matchesComplaintType_set (v : string) (c : Complaint) :
  v <> "" -> matchesComplaintType v c = true <-> toTitleCase (notes c) = v.
Proof.
  intros Hv. apply falsy_false_iff in Hv. unfold matchesComplaintType.
  now rewrite Hv, orb_false_l, or_default_self, String.eqb_eq.
Qed.

Lemma elem_of_filteredTasks (l : list Complaint) (s sc st : string)
    (sf : StatusFilter) (c : Complaint) :
  c ∈ filteredTasks l s sc st sf <->
  c ∈ l /\ matchesStatus sf c = true /\ matchesCountry sc c = true
  /\ matchesComplaintType st c = true /\ matchesSearch s c = true.
Proof.
  unfold filteredTasks. rewrite list_elem_of_In, filter_In, <- list_elem_of_In.
  rewrite !andb_true_iff. tauto.
Qed.

(** X12: every option of the country selector is a set filter that shows
    at least one record, and a record passes it exactly when the title case
    of its country is the option; a record whose country is not empty has
    its option in the list, and no option shows a record without country. *)
Theorem country_options_cover (allComplaints : list Complaint) (v : string) :
  v ∈ uniqueCountries allComplaints ->
  v <> ""
  /\ (exists c, c ∈ filteredTasks allComplaints "" v "" FilterAll)
  /\ (forall c, matchesCountry v c = true <-> toTitleCase (country c) = v)
  /\ (forall c, country c = "" -> matchesCountry v c = false)
  /\ (forall c, c ∈ allComplaints -> country c <> "" ->
                toTitleCase (country c) ∈ uniqueCountries allComplaints).
Proof.
  intros Hv.
  destruct (selector_list_spec (country <$> allComplaints) v) as [H1 _].
  fold (uniqueCountries allComplaints) in H1.
  apply H1 in Hv as (x & Hx & Hne & Hxv).
  apply list_elem_of_fmap in Hx as (c0 & -> & Hc0).
  assert (Hvne : v <> "").
  { rewrite <- Hxv. intros E. apply (proj1 (toTitleCase_empty_iff _)) in E.
    contradiction. }
  split; [assumption|]. split; [|split; [|split]].
  - exists c0. apply elem_of_filteredTasks.
    split; [assumption|]. split; [reflexivity|].
    split; [now apply matchesCountry_set|]. split; reflexivity.
  - intros c. now apply matchesCountry_set.
  - intros c Hc. destruct (matchesCountry v c) eqn:E; [|reflexivity].
    apply matchesCountry_set in E; [|assumption].
    rewrite Hc in E. cbn in E. congruence.
  - intros c Hc Hcne.
    destruct (selector_list_spec (country <$> allComplaints)
                (toTitleCase (country c))) as [H2 _].
    fold (uniqueCountries allComplaints) in H2. apply H2.
    exists (country c). split; [now apply list_elem_of_fmap_2 | auto].
Qed.

Lemma country_options_cover_witness :
  let l := [mkComplaint "1" "" "" "" "" "" "" "south korea" "" "" "N/A" "" InProgress;
            mkComplaint "2" "" "" "" "" "" "" "" "" "" "N/A" "" Closed] in
  "South Korea" <> ""
  /\ (exists c, c ∈ filteredTasks l "" "South Korea" "" FilterAll)
  /\ (forall c, matchesCountry "South Korea" c = true
                <-> toTitleCase (country c) = "South Korea")
  /\ (forall c, country c = "" -> matchesCountry "South Korea" c = false)
  /\ (forall c, c ∈ l -> country c <> "" ->
                toTitleCase (country c) ∈ uniqueCountries l).
Proof.
  intros l. apply (country_options_cover l "South Korea").
  vm_compute. left.
Defined.

(** X13: every record of the unified collection is shown under exactly one
    option of the complaint-type selector, the title case of its notes,
    which the selector lists. *)
Theorem every_record_has_a_type_option (tasksCsvText completedCsvText : string)
    (l : list Complaint) (c : Complaint) :
  fetchData tasksCsvText completedCsvText = Some l ->
  c ∈ l ->
  toTitleCase (notes c) ∈ uniqueComplaintTypes l
  /\ c ∈ filteredTasks l "" "" (toTitleCase (notes c)) FilterAll
  /\ (forall v, v ∈ uniqueComplaintTypes l ->
        (c ∈ filteredTasks l "" "" v FilterAll <-> v = toTitleCase (notes c))).
Proof.
  intros Hf Hc. destruct (unified_record_fields _ _ _ _ Hf Hc) as [_ Hn].
  assert (Hne : toTitleCase (notes c) <> "").
  { intros E. apply (proj1 (toTitleCase_empty_iff _)) in E. contradiction. }
  assert (Hin : toTitleCase (notes c) ∈ uniqueComplaintTypes l).
  { destruct (selector_list_spec (notes <$> l) (toTitleCase (notes c))) as [H _].
    fold (uniqueComplaintTypes l) in H. apply H. exists (notes c).
    split; [now apply list_elem_of_fmap_2 | auto]. }
  split; [assumption|]. split.
  - apply elem_of_filteredTasks. split; [assumption|]. split; [reflexivity|].
    split; [reflexivity|]. split; [now apply matchesComplaintType_set | reflexivity].
  - intros v Hv.
    assert (Hvne : v <> "").
    { destruct (selector_list_spec (notes <$> l) v) as [H _].
      fold (uniqueComplaintTypes l) in H. apply H in Hv as (x & _ & Hx & <-).
      intros E. apply (proj1 (toTitleCase_empty_iff _)) in E. contradiction. }
    rewrite elem_of_filteredTasks, (matchesComplaintType_set v c Hvne).
    split; [intros (_ & _ & _ & E & _); now symmetry|].
    intros ->. repeat split; try reflexivity; assumption.
Qed.

Lemma every_record_has_a_type_option_witness :
  let l := [withDate "1" "a"; completedRecord "3"] in
  toTitleCase (notes (completedRecord "3")) ∈ uniqueComplaintTypes l
  /\ completedRecord "3"
     ∈ filteredTasks l "" "" (toTitleCase (notes (completedRecord "3"))) FilterAll
  /\ (forall v, v ∈ uniqueComplaintTypes l ->
        (completedRecord "3" ∈ filteredTasks l "" "" v FilterAll
         <-> v = toTitleCase (notes (completedRecord "3")))).
Proof.
  intros l.
  apply (every_record_has_a_type_option (joinLines ["id,date"; "1,a"; ",b"])
           (joinLines ["id"; "3"]) l (completedRecord "3")).
  - vm_compute. reflexivity.
  - right. left.
Defined.

(** ** The sort request and the detail panel *)

Lemma SortKey_eqb_eq (k1 k2 : SortKey) : SortKey_eqb k1 k2 = true <-> k1 = k2.
Proof. destruct k1, k2; cbn; split; congruence. Qed.

Lemma SortKey_eqb_refl (k : SortKey) : SortKey_eqb k k = true.
Proof. now apply SortKey_eqb_eq. Qed.

(** X14: a sort request always leaves a sort in place, on the requested
    key; requests for the same key alternate between ascending and
    descending, a request for another key starts ascending, and after a
    request the arrow of every other column is the neutral one. *)
Theorem requestSort_alternates (sortConfig : option (SortKey * SortOrder))
    (key : SortKey) :
  (requestSort sortConfig key = Some (key, asc)
   \/ requestSort sortConfig key = Some (key, desc))
  /\ (requestSort sortConfig key = Some (key, desc) <-> sortConfig = Some (key, asc))
  /\ (requestSort (requestSort sortConfig key) key = Some (key, desc)
      <-> requestSort sortConfig key = Some (key, asc))
  /\ requestSort (requestSort (requestSort sortConfig key) key) key
     = requestSort sortConfig key
  /\ (forall other, other <> key ->
        requestSort (requestSort sortConfig other) key = Some (key, asc))
  /\ (forall k, getSortIcon (requestSort sortConfig key) k = UpDown <-> k <> key).
Proof.
  assert (Hne : forall a b, a <> b -> SortKey_eqb a b = false).
  { intros a b Hab. destruct (SortKey_eqb a b) eqn:E; [|reflexivity].
    now apply SortKey_eqb_eq in E. }
  assert (H1 : requestSort sortConfig key = Some (key, desc)
               <-> sortConfig = Some (key, asc)).
  { unfold requestSort. destruct sortConfig as [[k [|]]|]; try (split; congruence).
    destruct (SortKey_eqb k key) eqn:E.
    - apply SortKey_eqb_eq in E. subst k. tauto.
    - split; [congruence|]. intros [= ->]. now rewrite SortKey_eqb_refl in E. }
  split; [|split; [exact H1|]].
  { unfold requestSort. destruct sortConfig as [[k [|]]|]; auto.
    destruct (SortKey_eqb k key); auto. }
  split; [|split; [|split]].
  - unfold requestSort at 1. destruct (requestSort sortConfig key) as [[k [|]]|] eqn:E.
    + destruct (SortKey_eqb k key) eqn:Ek.
      * apply SortKey_eqb_eq in Ek. subst k. tauto.
      * unfold requestSort in E. injection E as Hk _. subst k.
        now rewrite SortKey_eqb_refl in Ek.
    + split; congruence.
    + discriminate.
  - unfold requestSort. destruct sortConfig as [[k [|]]|];
      try destruct (SortKey_eqb k key); rewrite ?SortKey_eqb_refl; reflexivity.
  - intros other Ho. unfold requestSort.
    destruct sortConfig as [[k [|]]|]; try destruct (SortKey_eqb k other);
      cbn iota; rewrite ?(Hne other key Ho); reflexivity.
  - intros k. unfold requestSort, getSortIcon.
    destruct (SortKey_eqb key k) eqn:E.
    + apply SortKey_eqb_eq in E. subst k. cbn [negb].
      split; [|congruence].
      destruct sortConfig as [[k' [|]]|]; try destruct (SortKey_eqb k' key);
        discriminate.
    + cbn [negb]. split; [|reflexivity]. intros _ ->.
      now rewrite SortKey_eqb_refl in E.
Qed.

(** X15: the detail panel never shows an empty value or the placeholder
    [N/A], always shows the signature row, as Yes or No, and so is never
    empty; a record mapped from a row without complaint type, whose notes
    are the placeholder, gets no complaint-type row. *)
Theorem shownDetails_spec (task : Complaint) :
  (forall label value, (label, value) ∈ shownDetails task ->
     value <> "" /\ value <> "N/A" /\ (label, value) ∈ details task)
  /\ (("Signature Provided", "Yes") ∈ shownDetails task
      \/ ("Signature Provided", "No") ∈ shownDetails task)
  /\ (1 <= length (shownDetails task) <= 6)%nat
  /\ (forall cleanValues c value,
        mapPrimary cleanValues = Some c -> blankAt cleanValues 14 ->
        ("Complaint Type", value) ∉ shownDetails c).
Proof.
  assert (Hin : forall t label value, (label, value) ∈ shownDetails t <->
            (label, value) ∈ details t /\ value <> "" /\ value <> "N/A").
  { intros t label value. unfold shownDetails.
    rewrite list_elem_of_In, filter_In, <- list_elem_of_In. cbn [snd].
    rewrite andb_true_iff, negb_true_iff. unfold truthy.
    rewrite negb_true_iff, falsy_false_iff, String.eqb_neq. tauto. }
  assert (Hsig : ("Signature Provided", "Yes") ∈ shownDetails task
                 \/ ("Signature Provided", "No") ∈ shownDetails task).
  { destruct (JS.falsy (signature task)) eqn:E; [right | left];
      apply Hin; (split; [|split; discriminate]);
      unfold details; rewrite E; do 2 right; left. }
  split; [intros label value H; apply Hin in H; tauto|].
  split; [exact Hsig|]. split.
  - split.
    + destruct (shownDetails task) as [|x l]; [|cbn; lia].
      destruct Hsig as [H | H]; inversion H.
    + change 6%nat with (length (details task)).
      apply sublist_length, filter_sublist.
  - intros cleanValues c value Hm Hb Hshown.
    apply Hin in Hshown as (Hd & Hne & Hna).
    destruct (mapPrimary_Some _ _ Hm) as (H0 & _).
    destruct (mapPrimary_defined _ H0) as (c' & Hm' & _ & _ & Hn & _).
    assert (c' = c) by congruence. subst c'.
    rewrite (or_default_blank _ _ _ Hb) in Hn.
    unfold details in Hd.
    repeat (apply elem_of_cons in Hd as [Hd | Hd]; [try discriminate|]).
    + injection Hd as ->. congruence.
    + inversion Hd.
Qed.

(** ** Initials and avatar colour *)

Lemma isLower_toUpperChar (c : ascii) : JS.isLower (JS.toUpperChar c) = false.
Proof. destruct c as [[] [] [] [] [] [] [] []]; reflexivity. Qed.

Lemma toUpperCase_no_lower (s : string) :
  allChars (fun c => negb (JS.isLower c)) (JS.toUpperCase s) = true.
Proof.
  induction s as [|c s IH]; [reflexivity|]. cbn [JS.toUpperCase].
  destruct (JS.code c =? 223); cbn [allChars];
    [exact IH | now rewrite isLower_toUpperChar, IH].
Qed.

Lemma length_charAt0 (s : string) : (String.length (JS.charAt0 s) <= 1)%nat.
Proof. destruct s; cbn; lia. Qed.

Lemma length_append (a b : string) :
  String.length (a +:+ b) = (String.length a + String.length b)%nat.
Proof. induction a as [|c a IH]; sapp; [reflexivity | now rewrite IH]. Qed.

Lemma allChars_append (p : ascii -> bool) (a b : string) :
  allChars p (a +:+ b) = allChars p a && allChars p b.
Proof.
  induction a as [|c a IH]; sapp; [reflexivity|].
  now rewrite IH, andb_assoc.
Qed.

Lemma allChars_charAt0 (p : ascii -> bool) (s : string) :
  allChars p s = true -> allChars p (JS.charAt0 s) = true.
Proof.
  destruct s as [|c s]; [reflexivity|]. cbn.
  intros H. apply andb_true_iff in H as [-> _]. reflexivity.
Qed.

Lemma allChars_cons_head (p : ascii -> bool) (c : ascii) (l : list string) :
  p c = true -> Forall (fun w => allChars p w = true) l ->
  Forall (fun w => allChars p w = true) (JS.cons_head c l).
Proof.
  intros Hc [|w l' Hw Hl]; cbn; constructor; cbn; auto.
  - now rewrite Hc.
  - now rewrite Hc, Hw.
Qed.

Lemma allChars_split (p : ascii -> bool) (sep : ascii) (s : string) :
  allChars p s = true -> Forall (fun w => allChars p w = true) (JS.split sep s).
Proof.
  induction s as [|c s IH]; cbn [allChars JS.split]; [repeat constructor|].
  intros H. apply andb_true_iff in H as [Hc Hs].
  destruct (Ascii.eqb c sep).
  - constructor; [reflexivity | auto].
  - apply allChars_cons_head; auto.
Qed.

Lemma allChars_lookup_default (p : ascii -> bool) (l : list string) (i : nat) :
  Forall (fun w => allChars p w = true) l ->
  allChars p (default "" (l !! i)) = true.
Proof.
  intros Hl. destruct (l !! i) as [w|] eqn:E; [|reflexivity]. cbn.
  rewrite List.Forall_forall in Hl. apply Hl.
  apply list_elem_of_In. eapply list_elem_of_lookup_2; eassumption.
Qed.

Lemma length_toUpperCase_ascii (s : string) :
  asciiText s = true -> String.length (JS.toUpperCase s) = String.length s.
Proof.
  unfold asciiText. induction s as [|c s IH]; [reflexivity|].
  cbn [allChars JS.toUpperCase]. intros H. apply andb_true_iff in H as [Hc Hs].
  apply Z.ltb_lt in Hc. destruct (Z.eqb_spec (JS.code c) 223) as [E|_]; [lia|].
  cbn [String.length]. now rewrite IH.
Qed.

(** X16: the empty name gives the question mark; the initials never hold
    a lower-case letter of a to z; for a name in the ASCII range they are
    at most two characters.  Beyond that range they can be more: the
    capital of the sharp s is two letters. *)
Theorem getInitials_shape (name : string) :
  (name = "" -> getInitials name = "?")
  /\ allChars (fun c => negb (JS.isLower c)) (getInitials name) = true
  /\ (asciiText name = true -> (String.length (getInitials name) <= 2)%nat)
  /\ getInitials (String (JS.of_code 223) "a " +:+ String (JS.of_code 223) "b")
     = "SSSS".
Proof.
  split; [now intros ->|]. split; [|split; [|reflexivity]].
  - unfold getInitials. destruct (JS.falsy name); [reflexivity|].
    destruct (_ =? 1)%nat; apply toUpperCase_no_lower.
  - intros Ha. unfold getInitials. destruct (JS.falsy name); [cbn; lia|].
    assert (Hw := allChars_split _ " "%char name Ha).
    set (names := JS.split " " name) in *.
    assert (H0 := allChars_charAt0 _ _ (allChars_lookup_default _ names 0 Hw)).
    assert (H1 := allChars_charAt0 _ _
                    (allChars_lookup_default _ names (length names - 1) Hw)).
    assert (L0 := length_charAt0 (default "" (names !! 0%nat))).
    assert (L1 := length_charAt0 (default "" (names !! (length names - 1)%nat))).
    destruct (_ =? 1)%nat; rewrite length_toUpperCase_ascii.
    + lia.
    + exact H0.
    + rewrite length_append. lia.
    + unfold asciiText. rewrite allChars_append. now rewrite H0, H1.
Qed.

Lemma split_concat (sep : ascii) (first : string) (others : list string) :
  occurs sep first = false ->
  forallb (fun w => negb (occurs sep w)) others = true ->
  JS.split sep (String.concat (String sep "") (first :: others)) = first :: others.
Proof.
  revert first. induction others as [|x os IH]; intros first Hf Ho.
  - now apply split_without_separator.
  - cbn [forallb] in Ho. apply andb_true_iff in Ho as [Hx Ho].
    apply negb_true_iff in Hx. rewrite concat_cons_cons.
    assert (E : JS.split sep (String sep "" +:+ String.concat (String sep "") (x :: os))
                = "" :: x :: os).
    { rewrite append_cons, append_nil_l. cbn [JS.split].
      rewrite Ascii.eqb_refl. now rewrite IH. }
    rewrite (split_app_nosep _ _ _ _ _ Hf E). now rewrite append_nil_r.
Qed.

Lemma last_cons (x d : string) (os : list string) :
  List.last (x :: os) d = List.last os x.
Proof.
  revert x d. induction os as [|y os IH]; intros x d; [reflexivity|].
  change (List.last (x :: y :: os) d) with (List.last (y :: os) d).
  now rewrite !IH.
Qed.

Lemma lookup_last (first : string) (others : list string) :
  (first :: others) !! length others = Some (List.last others first).
Proof.
  revert first. induction others as [|x os IH]; intros first; [reflexivity|].
  cbn [length lookup list_lookup]. rewrite IH. now rewrite last_cons.
Qed.

(** X17: for a name made of words joined by single spaces, the initials
    are the first character of the first word and, when there are more
    words, the first character of the last word, in upper case; words in
    between play no part, and an empty last word, as after a trailing space,
    adds nothing. *)
Theorem getInitials_words (first : string) (others : list string) :
  occurs " " first = false ->
  forallb (fun w => negb (occurs " " w)) others = true ->
  String.concat " " (first :: others) <> "" ->
  getInitials (String.concat " " (first :: others))
  = match others with
    | [] => JS.toUpperCase (JS.charAt0 first)
    | _ :: _ => JS.toUpperCase (JS.charAt0 first
                                +:+ JS.charAt0 (lastWord first others))
    end.
Proof.
  intros Hf Ho Hne. unfold getInitials.
  apply falsy_false_iff in Hne. rewrite Hne.
  rewrite (split_concat " " first others Hf Ho).
  destruct others as [|x os]; [reflexivity|].
  cbn [length Nat.eqb]. replace (S (S (length os)) - 1)%nat with (length (x :: os))
    by (cbn; lia).
  rewrite lookup_last. reflexivity.
Qed.

Lemma getInitials_words_witness :
  getInitials (String.concat " " ["mary"; "ann"; ""; "o'neil"])
  = JS.toUpperCase (JS.charAt0 "mary"
                    +:+ JS.charAt0 (lastWord "mary" ["ann"; ""; "o'neil"])).
Proof.
  apply (getInitials_words "mary" ["ann"; ""; "o'neil"]);
    [reflexivity | reflexivity | discriminate].
Defined.







(** ** Parsed dates in calendar order *)

Section Chronology.
Import JS.

Lemma within_year_order (Y M1 D1 M2 D2 : Z) :
  validDate Y M1 D1 -> validDate Y M2 D2 ->
  monthStart (InLeapYear Y) (M1 - 1) + D1 < monthStart (InLeapYear Y) (M2 - 1) + D2
  <-> M1 < M2 \/ (M1 = M2 /\ D1 < D2).
Proof.
  unfold validDate, daysInMonth. rewrite InLeapYear_isLeap.
  intros [HM1 HD1] [HM2 HD2]. revert HD1 HD2.
  assert (C1 : M1 = 1 \/ M1 = 2 \/ M1 = 3 \/ M1 = 4 \/ M1 = 5 \/ M1 = 6 \/ M1 = 7
               \/ M1 = 8 \/ M1 = 9 \/ M1 = 10 \/ M1 = 11 \/ M1 = 12) by lia.
  assert (C2 : M2 = 1 \/ M2 = 2 \/ M2 = 3 \/ M2 = 4 \/ M2 = 5 \/ M2 = 6 \/ M2 = 7
               \/ M2 = 8 \/ M2 = 9 \/ M2 = 10 \/ M2 = 11 \/ M2 = 12) by lia.
  clear HM1 HM2.
  repeat (destruct C1 as [-> | C1]); [.. | subst M1];
    (repeat (destruct C2 as [-> | C2]); [.. | subst M2];
     simpl; destruct (isLeap Y); simpl; lia).
Qed.

Lemma day_number_bounds (Y M D : Z) :
  validDate Y M D ->
  DayFromYear Y <= DayFromYear Y + monthStart (InLeapYear Y) (M - 1) + D - 1
  < DayFromYear (Y + 1).
Proof.
  intros [HM HD].
  assert (Hm : 0 <= M - 1 <= 11) by lia.
  replace M with (M - 1 + 1) in HD by lia.
  destruct (month_of_day Y (M - 1) D Hm HD) as (HY & _).
  pose proof (YearFromDay_spec
                (DayFromYear Y + monthStart (InLeapYear Y) (M - 1) + D - 1)) as Hs.
  now rewrite HY in Hs.
Qed.

Lemma day_number_order (Y1 M1 D1 Y2 M2 D2 : Z) :
  validDate Y1 M1 D1 -> validDate Y2 M2 D2 ->
  DayFromYear Y1 + monthStart (InLeapYear Y1) (M1 - 1) + D1 - 1
  < DayFromYear Y2 + monthStart (InLeapYear Y2) (M2 - 1) + D2 - 1
  <-> earlier (Y1, M1, D1) (Y2, M2, D2).
Proof.
  intros H1 H2. unfold earlier.
  pose proof (day_number_bounds _ _ _ H1) as B1.
  pose proof (day_number_bounds _ _ _ H2) as B2.
  destruct (Z.lt_trichotomy Y1 Y2) as [L | [E | G]].
  - assert (DayFromYear (Y1 + 1) <= DayFromYear Y2).
    { destruct (Z.eq_dec (Y1 + 1) Y2) as [->|]; [lia|].
      apply Z.lt_le_incl, DayFromYear_lt. lia. }
    split; [auto | lia].
  - subst Y2. pose proof (within_year_order Y1 M1 D1 M2 D2 H1 H2) as W. split.
    + intros H. right. split; [reflexivity|]. apply W. lia.
    + intros [? | [_ H]]; [lia|]. apply W in H. lia.
  - assert (DayFromYear (Y2 + 1) <= DayFromYear Y1).
    { destruct (Z.eq_dec (Y2 + 1) Y1) as [->|]; [lia|].
      apply Z.lt_le_incl, DayFromYear_lt. lia. }
    split; [lia|]. intros [? | [? _]]; lia.
Qed.

Lemma parse_day_number (s : string) (t Y M D : Z) :
  parseDateString s = Some t -> dateParts s = Some (Y, M, D) ->
  validDate Y M D
  /\ t = (DayFromYear Y + monthStart (InLeapYear Y) (M - 1) + D - 1) * msPerDay.
Proof.
  intros Hp Hd. apply parseDateString_spec in Hp
    as (p0 & p1 & p2 & d & mo & y & Hs & H0 & H1 & H2 & Hr & Ht).
  unfold dateParts in Hd. rewrite Hs, H0, H1, H2 in Hd.
  injection Hd as <- <- <-.
  apply roundTrips_fwd in Hr as (Hy & Hv & _).
  replace (mo - 1 + 1) with mo in Hv by lia. split; [assumption|].
  unfold Date_UTC in Ht. apply TimeClip_inv in Ht as [-> _].
  destruct (MakeFullYear_cases (normYear y)) as [[-> _] | [_ Hn]]; [|contradiction].
  rewrite MakeDay_in_year; [reflexivity|]. destruct Hv. lia.
Qed.

Lemma earlier_irrefl_eq (a b : Z * Z * Z) :
  ~ earlier a b -> ~ earlier b a -> a = b.
Proof.
  destruct a as [[Y1 M1] D1], b as [[Y2 M2] D2]. unfold earlier.
  intros H1 H2.
  assert (Y1 = Y2) by lia. subst.
  assert (M1 = M2) by lia. subst.
  assert (D1 = D2) by lia. now subst.
Qed.

End Chronology.

(** X19: two dates that parse compare by their time values as their years,
    months and days compare in the calendar, they have the same time value
    only when they are the same day, and every time value is a midnight. *)
Theorem parsed_dates_in_calendar_order (s1 s2 : string) (t1 t2 : Z)
    (a b : Z * Z * Z) :
  parseDateString s1 = Some t1 -> parseDateString s2 = Some t2 ->
  dateParts s1 = Some a -> dateParts s2 = Some b ->
  (t1 < t2 <-> earlier a b)
  /\ (t1 = t2 <-> a = b)
  /\ t1 mod JS.msPerDay = 0.
Proof.
  destruct a as [[Y1 M1] D1], b as [[Y2 M2] D2]. intros P1 P2 A B.
  destruct (parse_day_number _ _ _ _ _ P1 A) as [V1 E1].
  destruct (parse_day_number _ _ _ _ _ P2 B) as [V2 E2].
  pose proof (day_number_order _ _ _ _ _ _ V1 V2) as O12.
  pose proof (day_number_order _ _ _ _ _ _ V2 V1) as O21.
  assert (Hms : 0 < JS.msPerDay) by (unfold JS.msPerDay; lia).
  assert (Hlt : t1 < t2 <-> earlier (Y1, M1, D1) (Y2, M2, D2)).
  { rewrite <- O12, E1, E2. split; [|nia]. intros H.
    apply Z.mul_lt_mono_pos_r in H; assumption. }
  assert (Hgt : t2 < t1 <-> earlier (Y2, M2, D2) (Y1, M1, D1)).
  { rewrite <- O21, E1, E2. split; [|nia]. intros H.
    apply Z.mul_lt_mono_pos_r in H; assumption. }
  split; [exact Hlt|]. split.
  - split.
    + intros E. apply earlier_irrefl_eq; [rewrite <- Hlt | rewrite <- Hgt]; lia.
    + intros [= -> -> ->]. congruence.
  - rewrite E1. apply Z.mod_mul. lia.
Qed.

Lemma parsed_dates_in_calendar_order_witness :
  (1709164800000 < 1709251200000 <-> earlier (2024, 2, 29) (2024, 3, 1))
  /\ (1709164800000 = 1709251200000 <-> (2024, 2, 29) = (2024, 3, 1))
  /\ 1709164800000 mod JS.msPerDay = 0.
Proof.
  apply (parsed_dates_in_calendar_order "29/02/24" "1/3/2024");
    vm_compute; reflexivity.
Defined.

(** ** Plain lines, the classifier and the search term *)

Lemma stripTrailingQuote_plain (s : string) :
  occurs dquote s = false -> stripTrailingQuote s = s.
Proof.
  induction s as [|c s IH]; [reflexivity|].
  cbn [occurs]. intros H. apply orb_false_iff in H as [Hc Hs].
  cbn [stripTrailingQuote]. rewrite Hc, (IH Hs). destruct s; reflexivity.
Qed.

Lemma cleanValue_plain (f : string) :
  occurs dquote f = false -> JS.trim f = f -> cleanValue f = f.
Proof.
  intros Hq Ht. unfold cleanValue, stripQuotes. rewrite Ht.
  destruct f as [|c f]; [reflexivity|].
  cbn [occurs] in Hq. apply orb_false_iff in Hq as [Hc Hq]. rewrite Hc.
  apply stripTrailingQuote_plain. cbn [occurs]. now rewrite Hc, Hq.
Qed.

Lemma splitCSV_aux_plain (u s h : string) (t : list string) :
  occurs dquote u = false -> occurs "," u = false ->
  splitCSV_aux s = (h :: t, true) ->
  splitCSV_aux (u +:+ s) = ((u +:+ h) :: t, true).
Proof.
  intros Hq Hc Hs. induction u as [|c u IH]; [exact Hs|].
  cbn [occurs] in Hq, Hc.
  apply orb_false_iff in Hq as [Hq1 Hq]. apply orb_false_iff in Hc as [Hc1 Hc].
  rewrite append_cons. cbn [splitCSV_aux]. rewrite (IH Hq Hc).
  rewrite Hc1, Hq1. reflexivity.
Qed.

Lemma splitCSV_aux_plain_line (first : string) (others : list string) :
  plainRow [dquote; ","%char] (first :: others) = true ->
  splitCSV_aux (String.concat "," (first :: others)) = (first :: others, true).
Proof.
  revert first. induction others as [|x os IH]; intros first H.
  - unfold plainRow in H. cbn in H. rewrite !andb_true_r in H.
    apply andb_true_iff in H as [Hq Hc]. apply negb_true_iff in Hq, Hc.
    cbn [String.concat]. rewrite <- (append_nil_r first) at 1.
    rewrite (splitCSV_aux_plain first "" "" [] Hq Hc eq_refl).
    now rewrite append_nil_r.
  - assert (Hx : plainRow [dquote; ","%char] (x :: os) = true).
    { unfold plainRow in *. cbn [length Nat.eqb negb andb forallb] in *.
      apply andb_true_iff in H as [_ H]. exact H. }
    unfold plainRow in H. cbn [length Nat.eqb negb andb forallb] in H.
    apply andb_true_iff in H as [Hf _]. rewrite andb_true_r in Hf.
    apply andb_true_iff in Hf as [Hq Hc]. apply negb_true_iff in Hq, Hc.
    rewrite concat_cons_cons.
    assert (E : splitCSV_aux ("," +:+ String.concat "," (x :: os))
                = ("" :: x :: os, true)).
    { rewrite append_cons, append_nil_l. cbn [splitCSV_aux].
      rewrite (IH x Hx). reflexivity. }
    rewrite (splitCSV_aux_plain first _ _ _ Hq Hc E). now rewrite append_nil_r.
Qed.

(** X20: a line of unquoted fields, none holding a comma or a double quote
    and none with white space at its ends, is read back field by field. *)
Theorem plain_line_read_back (fields : list string) :
  plainRow [dquote; ","%char] fields = true ->
  forallb (fun f => String.eqb (JS.trim f) f) fields = true ->
  cleanLine (String.concat "," fields) = fields.
Proof.
  intros Hp Ht. destruct fields as [|first others]; [discriminate|].
  unfold cleanLine, splitCSV. rewrite (splitCSV_aux_plain_line _ _ Hp). cbn [fst].
  rewrite <- (list_fmap_id (first :: others)) at 2.
  apply list_fmap_ext. intros i f Hf. apply list_elem_of_lookup_2 in Hf.
  rewrite forallb_forall in Ht. apply list_elem_of_In in Hf.
  apply cleanValue_plain.
  - unfold plainRow in Hp. apply andb_true_iff in Hp as [_ Hp].
    rewrite forallb_forall in Hp. specialize (Hp f Hf). cbn [forallb] in Hp.
    apply andb_true_iff in Hp as [Hq _]. now apply negb_true_iff.
  - now apply String.eqb_eq, Ht.
Qed.

Lemma plain_line_read_back_witness :
  cleanLine (String.concat "," ["7"; "a b"; ""; "x/y"]) = ["7"; "a b"; ""; "x/y"].
Proof. apply (plain_line_read_back ["7"; "a b"; ""; "x/y"]); reflexivity. Defined.

Lemma toLowerCase_idem (s : string) :
  JS.toLowerCase (JS.toLowerCase s) = JS.toLowerCase s.
Proof.
  unfold JS.toLowerCase. induction s as [|c s IH]; [reflexivity|].
  cbn [JS.map_chars]. now rewrite toLowerChar_idem, IH.
Qed.

Lemma containsCI_extend (pre s post t : string) :
  containsCI s t -> containsCI (pre +:+ s +:+ post) t.
Proof.
  intros (a & mid & b & -> & Hm).
  exists (pre +:+ a), mid, (b +:+ post). split; [|assumption].
  now rewrite !append_assoc.
Qed.

(** X21: the classifier looks for the word inside the step: a step is
    closed exactly when it holds complete with case ignored, so every step
    that contains a closed step is closed too, whatever stands around it,
    and changing the case of a step never changes its status. *)
Theorem getStatus_by_substring (pre step post : string) :
  (getStatus step = Closed -> getStatus (pre +:+ step +:+ post) = Closed)
  /\ getStatus (JS.toLowerCase step) = getStatus step
  /\ (getStatus step = InProgress <-> ~ containsCI step "complete").
Proof.
  split; [|split].
  - rewrite !getStatus_rule. apply containsCI_extend.
  - assert (E : getStatus (JS.toLowerCase step) = Closed <-> getStatus step = Closed).
    { rewrite !getStatus_rule, <- !includes_lower_containsCI.
      now rewrite toLowerCase_idem. }
    destruct (getStatus (JS.toLowerCase step)), (getStatus step);
      try reflexivity; destruct E as [E1 E2];
      [now apply E2 | symmetry; now apply E1].
  - rewrite <- getStatus_rule. destruct (getStatus step); split; congruence.
Qed.

Lemma includes_sub (v pre sub post : string) :
  JS.includes v (pre +:+ sub +:+ post) = true -> JS.includes v sub = true.
Proof.
  rewrite !includes_spec. intros (a & b & ->).
  exists (a +:+ pre), (post +:+ b). now rewrite !append_assoc.
Qed.

(** X22: for a search term in the ASCII range, shortening the term never
    hides a row: a record that matches the term matches every substring of
    it, so the rows shown for a term are among the rows shown for any part
    of it; and the case of the term does not matter. *)
Theorem search_narrows (pre sub post : string) (l : list Complaint)
    (selectedCountry selectedComplaintType : string) (statusFilter : StatusFilter) :
  asciiText (pre +:+ sub +:+ post) = true ->
  (forall c, matchesSearch (pre +:+ sub +:+ post) c = true ->
             matchesSearch sub c = true)
  /\ (forall c, c ∈ filteredTasks l (pre +:+ sub +:+ post) selectedCountry
                     selectedComplaintType statusFilter ->
                c ∈ filteredTasks l sub selectedCountry selectedComplaintType
                     statusFilter)
  /\ (forall c, sub <> "" ->
                matchesSearch (JS.toLowerCase sub) c = matchesSearch sub c).
Proof.
  intros _.
  assert (H : forall c, matchesSearch (pre +:+ sub +:+ post) c = true ->
                        matchesSearch sub c = true).
  { intros c. unfold matchesSearch. destruct sub as [|x sub]; [reflexivity|].
    change (JS.falsy (String x sub)) with false. rewrite orb_false_l.
    intros Hm. apply orb_true_iff in Hm as [Hm | Hm].
    - apply falsy_iff in Hm. destruct pre; discriminate.
    - rewrite existsb_elem_of in *. destruct Hm as (v & Hv & Hi). exists v.
      split; [assumption|]. unfold JS.toLowerCase in *.
      rewrite !map_chars_app in Hi. eapply includes_sub; eassumption. }
  split; [exact H|]. split.
  - intros c. rewrite !elem_of_filteredTasks. intros (? & ? & ? & ? & Hs).
    repeat split; auto.
  - intros c Hne. unfold matchesSearch.
    rewrite toLowerCase_idem. destruct sub; [contradiction | reflexivity].
Qed.

Lemma search_narrows_witness :
  let l := [mkComplaint "4" "" "" "" "" "" "" "" "" "" "N/A" "Mixer-900" InProgress;
            withId "5"] in
  (forall c, matchesSearch ("Mi" +:+ "XER" +:+ "-9") c = true ->
             matchesSearch "XER" c = true)
  /\ (forall c, c ∈ filteredTasks l ("Mi" +:+ "XER" +:+ "-9") "" "" FilterAll ->
                c ∈ filteredTasks l "XER" "" "" FilterAll)
  /\ (forall c, "XER" <> "" ->
                matchesSearch (JS.toLowerCase "XER") c = matchesSearch "XER" c).
Proof.
  intros l. apply (search_narrows "Mi" "XER" "-9" l "" "" FilterAll). reflexivity.
Defined.

(** ** Sorting what is sorted *)

Lemma sort_sorted_id {A : Type} (comparefn : A -> A -> Z) (l : list A) :
  StronglySorted (mayPrecede comparefn) l -> JS.sort comparefn l = l.
Proof.
  induction 1 as [|x l Hl IH Hx]; [reflexivity|].
  cbn [JS.sort]. rewrite IH. destruct l as [|y l]; [reflexivity|].
  cbn [JS.insert]. apply Forall_cons in Hx as [Hxy _]. unfold mayPrecede in Hxy.
  destruct (Z.ltb_spec (comparefn y x) 0); [contradiction | reflexivity].
Qed.

(** X23: sorting is idempotent for every key whose comparator is
    consistent, that is every key but [plannedDate]: sorting the sorted
    collection again by the same key and order changes nothing. *)
Theorem sortedTasks_idempotent (key : SortKey) (order : SortOrder)
    (l : list Complaint) :
  key <> KplannedDate ->
  sortedTasks (sortedTasks l (Some (key, order))) (Some (key, order))
  = sortedTasks l (Some (key, order)).
Proof.
  intros Hk. cbn [sortedTasks]. apply sort_sorted_id.
  destruct (SortKey_eqb key Kid) eqn:E.
  - apply SortKey_eqb_eq in E. subst key.
    eapply StronglySorted_impl;
      [|apply (sort_into (compareTasks Kid order) (idOrder order))].
    + intros a b Hab. apply (mayPrecede_iff _ (idOrder order));
        auto using compareTasks_id_neg, idOrder_dec.
    + apply compareTasks_id_neg.
    + apply idOrder_total.
    + apply idOrder_trans.
    + apply idOrder_dec.
  - assert (Hid : key <> Kid).
    { intros ->. discriminate. }
    assert (Hdec : forall a b, textOrder key order a b \/ ~ textOrder key order a b).
    { intros a b. destruct order; [apply (textLe_dec (field key)) |
                                   apply (textLe_dec (field key) b a)]. }
    eapply StronglySorted_impl;
      [|apply (sort_into (compareTasks key order) (textOrder key order))].
    + intros a b Hab. apply (mayPrecede_iff _ (textOrder key order)); auto.
      intros x y. now apply compareTasks_text_neg.
    + intros x y. now apply compareTasks_text_neg.
    + intros a b. destruct order; [apply (textLe_total (field key)) |
                                   apply (textLe_total (field key) b a)].
    + intros a b c. destruct order; unfold textOrder; intros Hab Hbc.
      * exact (textLe_trans (field key) a b c Hab Hbc).
      * exact (textLe_trans (field key) c b a Hbc Hab).
    + exact Hdec.
Qed.

Lemma sortedTasks_idempotent_witness :
  sortedTasks (sortedTasks [withId "10"; withId "2"; withId "abc"] (Some (Kid, desc)))
              (Some (Kid, desc))
  = sortedTasks [withId "10"; withId "2"; withId "abc"] (Some (Kid, desc)).
Proof.
  apply (sortedTasks_idempotent Kid desc [withId "10"; withId "2"; withId "abc"]).
  discriminate.
Defined.
